(** * The authenticated-request pipeline of the storefront client

    A shallow embedding of [apiClient] (the axios wrapper that attaches
    the bearer token and refreshes it on a 401): the token store over
    [localStorage], the request interceptor, the response-error
    interceptor with its module-level refresh state, and the promise
    chain hung on the refresh call.

    JavaScript runs these handlers to completion one after the other, so
    the pipeline is a machine whose steps are the handler bodies; the
    network and the rest of the page are the environment that chooses the
    next event. *)

From stdpp Require Import gmap strings list fin_maps.
From Stdlib Require Import Ascii.

Open Scope string_scope.
Open Scope list_scope.

(** ** JavaScript values *)

(** The values that reach the token store setters and the [access] field
    of a refresh response. The code looks at such a value in two ways
    only: it tests it ([if (v)], [!v], [a || b]) and it turns it into a
    string (in a template literal and in [localStorage.setItem]). A
    number is given by its string, [String(n)]; an object, arrays
    included, by the string its [toString] returns, which is empty for
    the empty array. *)
Inductive JsVal :=
| JUndefined
| JNull
| JBool (b : bool)
| JNum (repr : string)
| JStr (s : string)
| JObj (repr : string).

(** [if (v)]: the falsy numbers are [0], [-0] (both print as ["0"]) and
    [NaN]; every object is truthy. *)
Definition truthy (v : JsVal) : bool :=
  match v with
  | JUndefined | JNull => false
  | JBool b => b
  | JNum repr => negb (String.eqb repr "0" || String.eqb repr "NaN")
  | JStr s => negb (String.eqb s "")
  | JObj _ => true
  end.

(** [String(v)], what a template literal and [localStorage.setItem] make
    of a value. *)
Definition to_string (v : JsVal) : string :=
  match v with
  | JUndefined => "undefined"
  | JNull => "null"
  | JBool true => "true"
  | JBool false => "false"
  | JNum repr => repr
  | JStr s => s
  | JObj repr => repr
  end.

(** What [localStorage.getItem] hands back: the string, or [null]. *)
Definition of_item (o : option string) : JsVal :=
  match o with
  | Some s => JStr s
  | None => JNull
  end.

(** ** localStorage *)

Module localStorage.
Definition getItem (k : string) (ls : gmap string string) : option string :=
  ls !! k.
Definition setItem (k : string) (v : JsVal) (ls : gmap string string)
  : gmap string string :=
  <[k := to_string v]> ls.
Definition removeItem (k : string) (ls : gmap string string)
  : gmap string string :=
  delete k ls.
End localStorage.

(** ** tokenStore *)

Module tokenStore.
Definition access (ls : gmap string string) : option string :=
  localStorage.getItem "access" ls.

Definition set_access (v : JsVal) (ls : gmap string string)
  : gmap string string :=
  if truthy v then localStorage.setItem "access" v ls
  else localStorage.removeItem "access" ls.

Definition refresh (ls : gmap string string) : option string :=
  localStorage.getItem "refresh" ls.

Definition set_refresh (v : JsVal) (ls : gmap string string)
  : gmap string string :=
  if truthy v then localStorage.setItem "refresh" v ls
  else localStorage.removeItem "refresh" ls.

Definition clear (ls : gmap string string) : gmap string string :=
  set_refresh JNull (set_access JNull ls).
End tokenStore.

(** ** Request configurations and errors *)

(** An axios request config, as far as the pipeline reads or writes it.
    A config without [headers] is one with no header; a config without
    [__isRetryRequest] reads as [false] in [!original.__isRetryRequest]. *)
Record Config := mkConfig {
  url : string;
  headers : gmap string string;
  __isRetryRequest : bool;
}.

(** [{}] *)
Definition empty_config : Config :=
  {| url := ""; headers := ∅; __isRetryRequest := false |}.

Definition set_headers (h : gmap string string) (c : Config) : Config :=
  {| url := url c; headers := h; __isRetryRequest := __isRetryRequest c |}.

Definition set_isRetryRequest (b : bool) (c : Config) : Config :=
  {| url := url c; headers := headers c; __isRetryRequest := b |}.

(** What a promise of the pipeline rejects with: an axios error (its
    [config] and [response.status], either of which may be missing) or a
    plain [Error]. *)
Inductive JsError :=
| AxiosError (config : option Config) (status : option Z)
| PlainError (message : string).

(** [`Bearer ${token}`] *)
Definition bearer (token : string) : string := "Bearer " +:+ token.

(** ** The request interceptor *)

Definition request_interceptor (ls : gmap string string) (config : Config)
  : Config :=
  let token := tokenStore.access ls in
  if truthy (of_item token)
  then set_headers (<["Authorization" := bearer (to_string (of_item token))]>
                      (headers config)) config
  else config.

(** [axios.create({ headers: { Accept: "application/json" } })]: the
    instance default, which a header of the request overrides. *)
Definition with_defaults (config : Config) : Config :=
  set_headers (headers config ∪ {["Accept" := "application/json"]}) config.

(** [api(config)] up to the wire: defaults merged, then the request
    interceptor. *)
Definition api_request (ls : gmap string string) (config : Config) : Config :=
  request_interceptor ls (with_defaults config).

(** ** The module state and the promises it hands out *)

(** The promise the error interceptor returns for a queued request:
    pending; rejected by a handler [reject]; or resolved, by
    [resolve(api(original))], with the promise of the replay [replay].
    A resolved promise follows the replayed request, it is fulfilled or
    rejected when that request is, which is outside the pipeline. *)
Inductive PromiseState :=
| Pending
| Rejected (e : JsError)
| Resolved (replay : Config).

(** A callback passed to [addSubscriber]: the closure over [original] and
    over [resolve] of the promise numbered [sub_resolve]. Every call of
    [api] builds its own config object, so the closure holds the only
    reference to [original]. *)
Record Subscriber := mkSubscriber {
  sub_original : Config;
  sub_resolve : nat;
}.

(** [isRefreshing], [refreshPromise] and [subscribers] are the module's
    variables and [ls] is [localStorage]. [inflight] holds the refresh
    calls on the wire, each with the [reject] functions attached to its
    promise chain by [refreshPromise.catch(reject)]; [promises] holds the
    promises returned to callers; [next_id] numbers new objects. *)
Record State := mkState {
  isRefreshing : bool;
  refreshPromise : option nat;
  subscribers : list Subscriber;
  ls : gmap string string;
  inflight : gmap nat (list nat);
  promises : gmap nat PromiseState;
  next_id : nat;
}.

Definition init : State :=
  {| isRefreshing := false; refreshPromise := None; subscribers := [];
     ls := ∅; inflight := ∅; promises := ∅; next_id := 0 |}.

Definition set_isRefreshing (b : bool) (s : State) : State :=
  mkState b (refreshPromise s) (subscribers s) (ls s) (inflight s)
          (promises s) (next_id s).
Definition set_refreshPromise (r : option nat) (s : State) : State :=
  mkState (isRefreshing s) r (subscribers s) (ls s) (inflight s)
          (promises s) (next_id s).
Definition set_subscribers (l : list Subscriber) (s : State) : State :=
  mkState (isRefreshing s) (refreshPromise s) l (ls s) (inflight s)
          (promises s) (next_id s).
Definition set_ls (m : gmap string string) (s : State) : State :=
  mkState (isRefreshing s) (refreshPromise s) (subscribers s) m (inflight s)
          (promises s) (next_id s).
Definition set_inflight (m : gmap nat (list nat)) (s : State) : State :=
  mkState (isRefreshing s) (refreshPromise s) (subscribers s) (ls s) m
          (promises s) (next_id s).
Definition set_promises (m : gmap nat PromiseState) (s : State) : State :=
  mkState (isRefreshing s) (refreshPromise s) (subscribers s) (ls s)
          (inflight s) m (next_id s).
Definition set_next_id (n : nat) (s : State) : State :=
  mkState (isRefreshing s) (refreshPromise s) (subscribers s) (ls s)
          (inflight s) (promises s) n.

(** [resolve] and [reject] of a promise act only while it is pending. *)
Definition settle (p : nat) (o : PromiseState) (ps : gmap nat PromiseState)
  : gmap nat PromiseState :=
  match ps !! p with
  | Some Pending => <[p := o]> ps
  | _ => ps
  end.

(** What a handler does that the outside can see. *)
Inductive Effect :=
| Sent (c : Config)
| Replayed (p : nat) (c : Config)
| PostRefresh (id : nat) (refresh : string).

(** What the error interceptor returns: [Promise.reject(error)] or the
    new promise. *)
Inductive Return :=
| RetReject (e : JsError)
| RetPromise (p : nat).

(** ** onRefreshed and addSubscriber *)

(** The callback built in the error interceptor: it rewrites
    [original.headers] and resolves its promise with [api(original)]. *)
Definition subscriber_call (newAccess : JsVal) (cb : Subscriber) (s : State)
  : State * list Effect :=
  let original :=
    set_headers (<["Authorization" := bearer (to_string newAccess)]>
                   (headers (sub_original cb))) (sub_original cb) in
  let sent := api_request (ls s) original in
  (set_promises (settle (sub_resolve cb) (Resolved sent) (promises s)) s,
   [Replayed (sub_resolve cb) sent]).

(** [subscribers.forEach((cb) => cb(newAccess))] *)
Fixpoint forEach (newAccess : JsVal) (cbs : list Subscriber) (s : State)
  : State * list Effect :=
  match cbs with
  | [] => (s, [])
  | cb :: rest =>
      let '(s1, e1) := subscriber_call newAccess cb s in
      let '(s2, e2) := forEach newAccess rest s1 in
      (s2, e1 ++ e2)
  end.

Definition onRefreshed (newAccess : JsVal) (s : State) : State * list Effect :=
  let '(s1, eff) := forEach newAccess (subscribers s) s in
  (set_subscribers [] s1, eff).

Definition addSubscriber (cb : Subscriber) (s : State) : State :=
  set_subscribers (subscribers s ++ [cb]) s.

(** ** The response-error interceptor *)

Definition error_config (e : JsError) : option Config :=
  match e with
  | AxiosError c _ => c
  | PlainError _ => None
  end.

(** [error?.response?.status] *)
Definition error_status (e : JsError) : option Z :=
  match e with
  | AxiosError _ st => st
  | PlainError _ => None
  end.

(** The branch taken when no refresh is running: raise the flag, mark
    [original], post the refresh token and keep the promise chain in
    [refreshPromise]. *)
Definition start_refresh (refresh : string) (original : Config) (s : State)
  : State * list Effect * Config :=
  let id := next_id s in
  let s1 := set_isRefreshing true s in
  let s2 := set_refreshPromise (Some id)
              (set_inflight (<[id := []]> (inflight s1))
                 (set_next_id (S id) s1)) in
  (s2, [PostRefresh id refresh], set_isRetryRequest true original).

(** [refreshPromise.catch(reject)] on the chain numbered [id]. *)
Definition catch_reject (id p : nat) (s : State) : State :=
  set_inflight (alter (λ rejects, rejects ++ [p]) id (inflight s)) s.

(** [new Promise((resolve, reject) => { addSubscriber(...); if
    (refreshPromise) refreshPromise.catch(reject); })] *)
Definition queue_request (original : Config) (s : State) : State * Return :=
  let p := next_id s in
  let s1 := set_promises (<[p := Pending]> (promises s))
              (set_next_id (S p) s) in
  let s2 := addSubscriber {| sub_original := original; sub_resolve := p |} s1 in
  let s3 := match refreshPromise s2 with
            | Some id => catch_reject id p s2
            | None => s2
            end in
  (s3, RetPromise p).

Definition response_error (error : JsError) (s : State)
  : State * list Effect * Return :=
  let original := default empty_config (error_config error) in
  let status := error_status error in
  if bool_decide (status = Some 401%Z) && negb (__isRetryRequest original) then
    let refresh := tokenStore.refresh (ls s) in
    if negb (truthy (of_item refresh)) then
      (set_ls (tokenStore.clear (ls s)) s, [], RetReject error)
    else
      let '(s1, eff, original1) :=
        if negb (isRefreshing s)
        then start_refresh (to_string (of_item refresh)) original s
        else (s, [], original) in
      let '(s2, ret) := queue_request original1 s1 in
      (s2, eff, ret)
  else (s, [], RetReject error).

(** ** The promise chain on the refresh call *)

(** How [axios.post] of the refresh settles: fulfilled with a response
    whose [data?.access] is the value carried, or rejected. *)
Inductive PostResult :=
| Fulfilled (access : JsVal)
| Failed (e : JsError).

Definition no_access_error : JsError :=
  PlainError "No access token in refresh response".

(** [.then((r) => { ... })]: the new token, or the error thrown. *)
Definition refresh_then (r : PostResult) (s : State)
  : State * list Effect * (JsVal + JsError) :=
  match r with
  | Fulfilled newAccess =>
      if negb (truthy newAccess) then (s, [], inr no_access_error)
      else
        let s1 := set_ls (tokenStore.set_access newAccess (ls s)) s in
        let '(s2, eff) := onRefreshed newAccess s1 in
        (s2, eff, inl newAccess)
  | Failed e => (s, [], inr e)
  end.

(** [.catch((e) => { tokenStore.clear(); throw e; })] *)
Definition refresh_catch (o : JsVal + JsError) (s : State) : State :=
  match o with
  | inl _ => s
  | inr _ => set_ls (tokenStore.clear (ls s)) s
  end.

(** [.finally(() => { isRefreshing = false; refreshPromise = null; })] *)
Definition refresh_finally (s : State) : State :=
  set_refreshPromise None (set_isRefreshing false s).

(** The handlers attached with [.catch(reject)] run when the chain ends
    rejected. *)
Definition run_rejects (o : JsVal + JsError) (rejects : list nat) (s : State)
  : State :=
  match o with
  | inl _ => s
  | inr e =>
      set_promises
        (foldl (λ ps p, settle p (Rejected e) ps) (promises s) rejects) s
  end.

(** The refresh call numbered [id] settles with [r]. *)
Definition refresh_settled (id : nat) (r : PostResult) (s : State)
  : State * list Effect :=
  match inflight s !! id with
  | None => (s, [])
  | Some rejects =>
      let s0 := set_inflight (delete id (inflight s)) s in
      let '(s1, eff, o) := refresh_then r s0 in
      let s2 := refresh_catch o s1 in
      let s3 := refresh_finally s2 in
      (run_rejects o rejects s3, eff)
  end.

(** ** Events and runs *)

(** What can happen next: the page calls [api], a request of [api] comes
    back failed, a refresh call settles, or some code of the page writes
    [localStorage] (the token store setters, the login and logout
    handlers). *)
Inductive Event :=
| Call (c : Config)
| ResponseError (error : JsError)
| RefreshSettled (id : nat) (r : PostResult)
| SetItem (k : string) (v : JsVal)
| RemoveItem (k : string).

(** One entry of the log of a run. *)
Inductive Obs :=
| Did (e : Effect)
| Returned (error : JsError) (r : Return).

Definition step (ev : Event) (s : State) : State * list Obs :=
  match ev with
  | Call c => (s, [Did (Sent (api_request (ls s) c))])
  | ResponseError error =>
      let '(s1, eff, ret) := response_error error s in
      (s1, map Did eff ++ [Returned error ret])
  | RefreshSettled id r =>
      let '(s1, eff) := refresh_settled id r s in
      (s1, map Did eff)
  | SetItem k v => (set_ls (localStorage.setItem k v (ls s)) s, [])
  | RemoveItem k => (set_ls (localStorage.removeItem k (ls s)) s, [])
  end.

Fixpoint run (evs : list Event) (s : State) : State * list Obs :=
  match evs with
  | [] => (s, [])
  | ev :: rest =>
      let '(s1, o1) := step ev s in
      let '(s2, o2) := run rest s1 in
      (s2, o1 ++ o2)
  end.

Definition reachable (s : State) : Prop :=
  ∃ evs, (run evs init).1 = s.

(** * The vocabulary of the statements *)

(** ** Branches of the error interceptor *)

(** The request is one the recovery path takes: a 401 on a config not
    marked as retried (the guard of the interceptor). *)
Definition recoverable (error : JsError) : bool :=
  bool_decide (error_status error = Some 401%Z)
  && negb (__isRetryRequest (default empty_config (error_config error))).

(** The store holds a refresh token (the guard [if (!refresh)]). *)
Definition has_refresh (s : State) : bool :=
  truthy (of_item (tokenStore.refresh (ls s))).

(** The state after a request is queued behind the chain [id], whose
    handlers were [l]. *)
Definition queued_state (original : Config) (id : nat) (l : list nat)
           (s : State) : State :=
  {| isRefreshing := true;
     refreshPromise := Some id;
     subscribers := subscribers s
                    ++ [{| sub_original := original;
                           sub_resolve := next_id s |}];
     ls := ls s;
     inflight := {[id := l ++ [next_id s]]};
     promises := <[next_id s := Pending]> (promises s);
     next_id := S (next_id s) |}.

(** ** The end of a refresh call *)

(** The error the chain ends with, if it ends rejected. *)
Definition rejection (r : PostResult) : option JsError :=
  match r with
  | Fulfilled newAccess =>
      if truthy newAccess then None else Some no_access_error
  | Failed e => Some e
  end.

(** The config a subscriber puts on the wire when called with
    [newAccess] while the storage is [m]. *)
Definition replay_config (newAccess : JsVal) (m : gmap string string)
           (cb : Subscriber) : Config :=
  api_request m
    (set_headers (<["Authorization" := bearer (to_string newAccess)]>
                    (headers (sub_original cb))) (sub_original cb)).

(** The promises after every subscriber of [cbs] has resolved its own. *)
Definition resolve_all (newAccess : JsVal) (m : gmap string string)
           (cbs : list Subscriber) (ps : gmap nat PromiseState)
  : gmap nat PromiseState :=
  foldl (λ ps cb,
         settle (sub_resolve cb) (Resolved (replay_config newAccess m cb)) ps)
        ps cbs.

(** ** The invariant *)

(** The [reject] functions attached to the chain that [refreshPromise]
    holds: the requests queued behind the running refresh. *)
Definition cycle_rejects (s : State) : list nat :=
  match refreshPromise s with
  | Some id => default [] (inflight s !! id)
  | None => []
  end.

(** [refreshPromise] holds the one refresh call on the wire exactly
    while [isRefreshing] is up; the requests queued behind it are still
    pending; object numbers are fresh; no promise is queued twice. *)
Record wf (s : State) : Prop := mkWf {
  wf_cycle :
    match refreshPromise s with
    | Some id => isRefreshing s = true ∧ ∃ l, inflight s = {[id := l]}
    | None => isRefreshing s = false ∧ inflight s = ∅
    end;
  wf_pending :
    Forall (λ p, promises s !! p = Some Pending) (cycle_rejects s);
  wf_promises : ∀ p, is_Some (promises s !! p) → p < next_id s;
  wf_subscribers :
    Forall (λ cb, sub_resolve cb < next_id s) (subscribers s);
  wf_nodup : NoDup (map sub_resolve (subscribers s));
}.

(** ** Reading the log of a run *)

(** The refresh calls issued. *)
Definition posts (log : list Obs) : list (nat * string) :=
  flat_map (λ o, match o with
                 | Did (PostRefresh id r) => [(id, r)]
                 | _ => []
                 end) log.

(** The promises handed out for queued requests, in the order of the
    calls of [addSubscriber]. *)
Definition queued (log : list Obs) : list nat :=
  flat_map (λ o, match o with
                 | Returned _ (RetPromise p) => [p]
                 | _ => []
                 end) log.

(** The requests replayed by subscribers, in the order of the calls. *)
Definition replays (log : list Obs) : list (nat * Config) :=
  flat_map (λ o, match o with
                 | Did (Replayed p c) => [(p, c)]
                 | _ => []
                 end) log.

(** A queued request as the caller knows it: its promise, its url and
    the headers it was sent with. *)
Definition sub_key (cb : Subscriber) : nat * string * gmap string string :=
  (sub_resolve cb, url (sub_original cb), headers (sub_original cb)).

(** The requests queued according to the log. *)
Definition queued_requests (log : list Obs)
  : list (nat * string * gmap string string) :=
  flat_map (λ o, match o with
                 | Returned error (RetPromise p) =>
                     let c := default empty_config (error_config error) in
                     [(p, url c, headers c)]
                 | _ => []
                 end) log.

Definition is_settle (ev : Event) : bool :=
  match ev with
  | RefreshSettled _ _ => true
  | _ => false
  end.

(** ** Runs of failed responses *)




(** ** Inputs of the examples *)

(** A 401 on a first attempt, as axios reports it. *)
Definition unauthorized (u : string) : JsError :=
  AxiosError (Some {| url := u; headers := ∅; __isRetryRequest := false |})
             (Some 401%Z).

(** A 401 on a request that carries the retry mark. *)
Definition unauthorized_again (u : string) : JsError :=
  AxiosError (Some {| url := u; headers := ∅; __isRetryRequest := true |})
             (Some 401%Z).

(** [login()] of the auth service with a response [{access, refresh}]:
    [tokenStore.access = access; tokenStore.refresh = refresh]. *)
Definition login (access refresh : JsVal) : list Event :=
  [ if truthy access then SetItem "access" access else RemoveItem "access";
    if truthy refresh then SetItem "refresh" refresh
    else RemoveItem "refresh" ].

(** [logout()]: [tokenStore.clear()]. *)
Definition logout : list Event := [RemoveItem "access"; RemoveItem "refresh"].

(** ** Statements read without the guards of the interceptor or the
    timing *)




(** The path without refresh token for any request: a 401 while the
    store holds no refresh token leaves the store without tokens, is
    rejected with its error and issues nothing. *)
Definition no_refresh_as_stated : Prop :=
  ∀ (s : State) (error : JsError),
    reachable s → error_status error = Some 401%Z →
    tokenStore.refresh (ls s) = None →
    let r := response_error error s in
    tokenStore.access (ls r.1.1) = None
    ∧ tokenStore.refresh (ls r.1.1) = None
    ∧ r.2 = RetReject error ∧ r.1.2 = [].

(** ** The pipeline and the rest of the page *)

(** The events the pipeline handles itself; the others are writes of
    the page to [localStorage]. *)
Definition pipeline_event (ev : Event) : bool :=
  match ev with
  | Call _ | ResponseError _ | RefreshSettled _ _ => true
  | SetItem _ _ | RemoveItem _ => false
  end.

(** An event that stores no empty string under the keys of the token
    store: a write of the page under one of the two keys, or the end of
    a refresh call fulfilled with a truthy [access], whose value does
    not turn into the empty string. *)
Definition nonempty_write (ev : Event) : bool :=
  match ev with
  | SetItem k v =>
      if bool_decide (k = "access" ∨ k = "refresh")
      then negb (String.eqb (to_string v) "") else true
  | RefreshSettled _ (Fulfilled v) =>
      negb (truthy v) || negb (String.eqb (to_string v) "")
  | _ => true
  end.

(** No token of the store is the empty string. *)
Definition tokens_nonempty (m : gmap string string) : Prop :=
  ∀ k t, k = "access" ∨ k = "refresh" → m !! k = Some t → t ≠ "".

(** The promises still pending are those of the requests queued behind
    the running refresh, and each of these has its callback in
    [subscribers]. *)
Definition pending_tracked (s : State) : Prop :=
  (∀ p, promises s !! p = Some Pending → p ∈ cycle_rejects s)
  ∧ (∀ p, p ∈ cycle_rejects s → p ∈ map sub_resolve (subscribers s)).

(** * The code around the pipeline *)

(** Strings stand for JavaScript strings whose code units are below 256,
    one character per code unit, so that [length] is [.length]. *)

(** ** The base url *)

(** The rest of the string from here matches [\/*$]. *)
Fixpoint all_slashes (s : string) : bool :=
  match s with
  | EmptyString => true
  | String c rest => Ascii.eqb c "/"%char && all_slashes rest
  end.

(** [s.replace(/\/+$/, "")]: the first position from which only slashes
    follow, at least one, is where the match starts; it runs to the end
    and is replaced by nothing. *)
Fixpoint strip_trailing_slashes (s : string) : string :=
  match s with
  | EmptyString => EmptyString
  | String c rest =>
      if Ascii.eqb c "/"%char && all_slashes rest then EmptyString
      else String c (strip_trailing_slashes rest)
  end.

(** [(process.env.REACT_APP_API_BASE || "").replace(/\/+$/, "")] *)
Definition API_BASE (env : option string) : string :=
  strip_trailing_slashes
    (to_string (if truthy (of_item env) then of_item env else JStr "")).

(** [`${API_BASE}/api/auths/token/refresh/`] and
    [`${API_BASE}/api/auths/token/`] *)
Definition refresh_url (env : option string) : string :=
  API_BASE env +:+ "/api/auths/token/refresh/".
Definition token_url (env : option string) : string :=
  API_BASE env +:+ "/api/auths/token/".

(** A run of [n] slashes. *)
Fixpoint slashes (n : nat) : string :=
  match n with
  | 0 => EmptyString
  | S n => String "/"%char (slashes n)
  end.

(** ** Logging in and out *)

(** [authService]: [login] stores the two fields of the response
    through the setters of the token store ([const { access, refresh } =
    res.data || {}], a missing field is [undefined]); [logout] clears
    the store. *)
Module authService.
Definition login (access refresh : JsVal) (m : gmap string string)
  : gmap string string :=
  tokenStore.set_refresh refresh (tokenStore.set_access access m).
Definition logout (m : gmap string string) : gmap string string :=
  tokenStore.clear m.
End authService.

(** The login form writes [localStorage] itself:
    [if (access) localStorage.setItem("access", access);
     if (refresh) localStorage.setItem("refresh", refresh);] *)
Module LoginPage.
Definition store_tokens (access refresh : JsVal) (m : gmap string string)
  : gmap string string :=
  let m1 := if truthy access then localStorage.setItem "access" access m
            else m in
  if truthy refresh then localStorage.setItem "refresh" refresh m1 else m1.
End LoginPage.

(** ** Decoding the token for display *)

(** [s.replace(/a/g, b)] for single characters. *)
Fixpoint replace_char (a b : ascii) (s : string) : string :=
  match s with
  | EmptyString => EmptyString
  | String c rest =>
      String (if Ascii.eqb c a then b else c) (replace_char a b rest)
  end.

(** [c.repeat(n)] *)
Fixpoint repeat_char (c : ascii) (n : nat) : string :=
  match n with
  | 0 => EmptyString
  | S n => String c (repeat_char c n)
  end.

(** [s.split(c)] for a single character: the pieces between the
    occurrences of [c], at least one piece. *)
Fixpoint split (sep : ascii) (s : string) : list string :=
  match s with
  | EmptyString => [EmptyString]
  | String c rest =>
      if Ascii.eqb c sep then EmptyString :: split sep rest
      else match split sep rest with
           | piece :: pieces => String c piece :: pieces
           | [] => [String c EmptyString]
           end
  end.

(** The text handed to [atob]: padded with [=] to a multiple of four
    characters, [-] and [_] turned into [+] and [/].
    [const padLen = (4 - (b64url.length % 4)) % 4;
     (b64url + "=".repeat(padLen)).replace(/-/g, "+").replace(/_/g, "/")] *)
Definition b64url_to_b64 (b64url : string) : string :=
  let padLen := (4 - String.length b64url mod 4) mod 4 in
  replace_char "_" "/"
    (replace_char "-" "+" (b64url +:+ repeat_char "=" padLen)).

(** The navigation bar. [parse] stands for [JSON.parse(atob(b64))]
    inside [try { } catch { return null; }]: [None] when either throws
    or the text is [null]. *)
Module Navbar.
Definition safeB64UrlToJson {Json : Type} (parse : string → option Json)
           (b64url : string) : option Json :=
  parse (b64url_to_b64 b64url).

(** [token] is what [localStorage.getItem] returned. *)
Definition decodeJwt {Json : Type} (parse : string → option Json)
           (token : option string) : option Json :=
  if negb (truthy (of_item token)) then None
  else
    let parts := split "." (to_string (of_item token)) in
    if (length parts <? 2)%nat then None
    else safeB64UrlToJson parse (nth 1 parts EmptyString).

Definition handleLogout (m : gmap string string) : gmap string string :=
  localStorage.removeItem "refresh" (localStorage.removeItem "access" m).
End Navbar.

(** [a || b] *)
Definition js_or (a b : JsVal) : JsVal := if truthy a then a else b.

(** [`Basic ${btoa(`${BASIC_USER}:${BASIC_PASS}`)}`], the development
    fallback of the pages; [btoa] is the browser's. *)
Definition basic (btoa : string → string) (user pass : JsVal) : string :=
  "Basic " +:+ btoa (to_string user +:+ ":" +:+ to_string pass).

(** The headers of a page that reads its token as [token]:
    [if (token) h.Authorization = `Bearer ${token}`;
     else if (BASIC_USER && BASIC_PASS) h.Authorization = `Basic ...`] *)
Definition with_authorization (btoa : string → string) (user pass : JsVal)
           (token : JsVal) (h : gmap string string) : gmap string string :=
  if truthy token then <["Authorization" := bearer (to_string token)]> h
  else if truthy user && truthy pass
       then <["Authorization" := basic btoa user pass]> h
       else h.

(** The orders page: [getAuthHeaders]. *)
Module Orders.
Definition getAuthHeaders (btoa : string → string) (user pass : JsVal)
           (m : gmap string string) : gmap string string :=
  let token :=
    js_or (js_or (js_or (of_item (localStorage.getItem "access" m))
                        (of_item (localStorage.getItem "jwt" m)))
                 (of_item (localStorage.getItem "token" m)))
          (JStr "") in
  with_authorization btoa user pass token ∅.
End Orders.

(** The products page: [authHeaders]. *)
Module Products.
Definition authHeaders (btoa : string → string) (user pass : JsVal)
           (m : gmap string string) : gmap string string :=
  let h : gmap string string := {["Accept" := "application/json"]} in
  let token := js_or (of_item (localStorage.getItem "access" m))
                     (of_item (localStorage.getItem "token" m)) in
  with_authorization btoa user pass token h.
End Products.

(** The identity page: [authHeaders]; [ss] is [sessionStorage]. *)
Module VerifyIdentity.
Definition authHeaders (btoa : string → string) (user pass : JsVal)
           (m ss : gmap string string) : gmap string string :=
  let token := js_or (of_item (localStorage.getItem "access" m))
                     (of_item (localStorage.getItem "access" ss)) in
  with_authorization btoa user pass token ∅.
End VerifyIdentity.

(** The checkout page: [authHeaders]. *)
Module Checkout.
Definition authHeaders (btoa : string → string) (user pass : JsVal)
           (m : gmap string string) : gmap string string :=
  let token := of_item (localStorage.getItem "access" m) in
  let h : gmap string string := {["Content-Type" := "application/json"]} in
  with_authorization btoa user pass token h.
End Checkout.

(** The profile page: [getAccessToken], [authHeaders(extra)], where the
    entries of [extra] come last in the object literal and win, and
    [onLogout]. *)
Module Profile.
Definition getAccessToken (m ss : gmap string string) : JsVal :=
  js_or (js_or (js_or (of_item (localStorage.getItem "access" m))
                      (of_item (localStorage.getItem "ACCESS_TOKEN" m)))
               (of_item (localStorage.getItem "access" ss)))
        (JStr "").

Definition authHeaders (btoa : string → string) (user pass : JsVal)
           (extra : gmap string string) (m ss : gmap string string)
  : gmap string string :=
  let token := getAccessToken m ss in
  if truthy token
  then extra ∪ {["Authorization" := bearer (to_string token)]}
  else if truthy user && truthy pass
       then extra ∪ {["Authorization" := basic btoa user pass]}
       else extra.

Definition onLogout (m : gmap string string) : gmap string string :=
  localStorage.removeItem "ACCESS_TOKEN"
    (localStorage.removeItem "refresh" (localStorage.removeItem "access" m)).
End Profile.

(** The upload page: [getJwt] and [decodeJwtPayload], whose whole body
    is inside [try { } catch { return null; }], so that a [null] token
    gives [null]. *)
Module UploadPage.
Definition getJwt (m : gmap string string) : JsVal :=
  js_or (of_item (localStorage.getItem "access" m)) (JStr "").

Definition decodeJwtPayload {Json : Type} (parse : string → option Json)
           (token : option string) : option Json :=
  match token with
  | None => None
  | Some t =>
      match split "." t with
      | _ :: payload :: _ =>
          if negb (truthy (JStr payload)) then None
          else parse (b64url_to_b64 payload)
      | _ => None
      end
  end.
End UploadPage.

(** The feed: [getJwt]. *)
Module Feed.
Definition getJwt (m : gmap string string) : JsVal :=
  js_or (of_item (localStorage.getItem "access" m)) (JStr "").
End Feed.

(** The cart and the product page: [getJwt], which looks under
    [access_token] first. *)
Module Cart.
Definition getJwt (m ss : gmap string string) : JsVal :=
  js_or (js_or (js_or (js_or (of_item (localStorage.getItem "access_token" m))
                             (of_item (localStorage.getItem "access" m)))
                      (of_item (localStorage.getItem "access_token" ss)))
               (of_item (localStorage.getItem "access" ss)))
        JNull.

(** The cart as the server sent it: [null], or an object whose [items],
    when it has any, is an array of objects; [others] are its other
    fields. Field values are of a type [V] with decidable equality,
    which is [===] on the ids. *)
Record cart (V : Type) := mkCart {
  items : option (list (gmap string V));
  others : gmap string V;
}.
Arguments mkCart {V} _ _.
Arguments items {V} _.
Arguments others {V} _.

(** What a state updater does: it returns the next state, or throws
    ([prev.items.map] on a cart without [items]). *)
Inductive updated (V : Type) :=
| Next (c : option (cart V))
| Throws.
Arguments Next {V} _.
Arguments Throws {V}.

(** The updater passed to [setCart] by [optimisticUpdate(itemId,
    transform)]; a missing field reads as [undefined], here [None]. *)
Definition optimisticUpdate {V : Type} `{EqDecision V} (itemId : option V)
           (transform : gmap string V → gmap string V)
           (prev : option (cart V)) : updated V :=
  match prev with
  | None => Next None
  | Some c =>
      match items c with
      | None => Throws
      | Some its =>
          Next (Some (mkCart
                        (Some (map (λ it, if bool_decide (it !! "id" = itemId)
                                          then transform it else it) its))
                        (others c)))
      end
  end.

(** The updater of [optimisticRemove(itemId)]. *)
Definition optimisticRemove {V : Type} `{EqDecision V} (itemId : option V)
           (prev : option (cart V)) : updated V :=
  match prev with
  | None => Next None
  | Some c =>
      match items c with
      | None => Throws
      | Some its =>
          Next (Some (mkCart
                        (Some (List.filter
                                 (λ it, negb (bool_decide (it !! "id" = itemId)))
                                 its))
                        (others c)))
      end
  end.

(** [(raw) => ({ ...raw, quantity: q })] *)
Definition set_quantity {V : Type} (q : V) (raw : gmap string V)
  : gmap string V :=
  <["quantity" := q]> raw.

(** [qty: Number(it.quantity || 1)], the quantity of the item the page
    derives from the raw item [it]. The conversion is the parameter
    [number], applied to the field, or to [undefined] (here [None]) when
    the item has none. *)
Definition qty {V : Type} (number : option V → V) (it : gmap string V) : V :=
  number (it !! "quantity").

(** [onQtyChange(item, nextQty)] when the request fails, as an updater
    of the cart: the optimistic update to [desired], then, in [catch],
    the update to [prevQty = item.qty]. [item] is derived from the raw
    item [it], so that [item.id] is [it.id] and [item.qty] is [qty it];
    no other update of the cart comes in between. *)
Definition onQtyChange_failed {V : Type} `{EqDecision V}
           (number : option V → V) (it : gmap string V) (desired : V)
           (prev : option (cart V)) : updated V :=
  let prevQty := qty number it in
  match optimisticUpdate (it !! "id") (set_quantity desired) prev with
  | Next c1 => optimisticUpdate (it !! "id") (set_quantity prevQty) c1
  | Throws => Throws
  end.
End Cart.

(** ** Media urls *)

(** Lower case of a letter, for the [i] flag of a pattern of ASCII
    letters. *)
Definition lower (c : ascii) : ascii :=
  let n := nat_of_ascii c in
  if (65 <=? n)%nat && (n <=? 90)%nat then ascii_of_nat (n + 32) else c.

(** [s] starts with [p], letters compared without case. *)
Fixpoint prefix_ci (p s : string) : bool :=
  match p, s with
  | EmptyString, _ => true
  | String a p', String b s' => Ascii.eqb (lower a) (lower b) && prefix_ci p' s'
  | String _ _, EmptyString => false
  end.

(** [s.startsWith(p)] *)
Fixpoint starts_with (p s : string) : bool :=
  match p, s with
  | EmptyString, _ => true
  | String a p', String b s' => Ascii.eqb a b && starts_with p' s'
  | String _ _, EmptyString => false
  end.

(** [/^(https?:|blob:|data:)/i.test(path)] *)
Definition has_scheme (path : string) : bool :=
  prefix_ci "http:" path || prefix_ci "https:" path
  || prefix_ci "blob:" path || prefix_ci "data:" path.

(** [absUrl] of the cart, product, profile and orders pages; [path] is
    a string or missing, [MEDIA_BASE] the media base url of the page. *)
Definition absUrl (MEDIA_BASE : string) (path : option string) : string :=
  if negb (truthy (of_item path)) then ""
  else
    let path := to_string (of_item path) in
    if has_scheme path then path
    else MEDIA_BASE +:+ (if starts_with "/" path then "" else "/") +:+ path.

(** [absUrl] of the feed, which also knows urls that start with [//];
    [protocol] is [window.location.protocol]. *)
Module FeedUrl.
Definition absUrl (MEDIA_BASE protocol : string) (path : option string)
  : string :=
  if negb (truthy (of_item path)) then ""
  else
    let path := to_string (of_item path) in
    if has_scheme path then path
    else if starts_with "//" path then protocol +:+ path
    else
      let clean := if starts_with "/" path then path else "/" +:+ path in
      MEDIA_BASE +:+ clean.
End FeedUrl.

Module ProductDetail.
Definition getJwt (m : gmap string string) : JsVal :=
  js_or (js_or (of_item (localStorage.getItem "access_token" m))
               (of_item (localStorage.getItem "access" m)))
        JNull.
End ProductDetail.

(** The character [c] occurs in [s]. *)
Fixpoint occurs (c : ascii) (s : string) : bool :=
  match s with
  | EmptyString => false
  | String c' rest => Ascii.eqb c' c || occurs c rest
  end.

(** * Properties *)

(** ** The token store *)

Lemma truthy_JStr (t : string) : t ≠ "" → truthy (JStr t) = true.
Proof.
  intros Ht. simpl. destruct (String.eqb_spec t ""); [contradiction | done].
Qed.

Lemma truthy_of_item_Some (o : option string) :
  truthy (of_item o) = true → ∃ t, o = Some t ∧ t ≠ "".
Proof.
  destruct o as [t|]; simpl; [|done].
  destruct (String.eqb_spec t ""); [done | eauto].
Qed.

Lemma access_set_access (v : JsVal) (m : gmap string string) :
  tokenStore.access (tokenStore.set_access v m)
  = if truthy v then Some (to_string v) else None.
Proof.
  unfold tokenStore.access, tokenStore.set_access, localStorage.getItem,
    localStorage.setItem, localStorage.removeItem.
  destruct (truthy v); by simplify_map_eq.
Qed.

Lemma refresh_set_refresh (v : JsVal) (m : gmap string string) :
  tokenStore.refresh (tokenStore.set_refresh v m)
  = if truthy v then Some (to_string v) else None.
Proof.
  unfold tokenStore.refresh, tokenStore.set_refresh, localStorage.getItem,
    localStorage.setItem, localStorage.removeItem.
  destruct (truthy v); by simplify_map_eq.
Qed.

Lemma refresh_set_access (v : JsVal) (m : gmap string string) :
  tokenStore.refresh (tokenStore.set_access v m) = tokenStore.refresh m.
Proof.
  unfold tokenStore.refresh, tokenStore.set_access, localStorage.getItem,
    localStorage.setItem, localStorage.removeItem.
  destruct (truthy v); by simplify_map_eq.
Qed.

Lemma access_set_refresh (v : JsVal) (m : gmap string string) :
  tokenStore.access (tokenStore.set_refresh v m) = tokenStore.access m.
Proof.
  unfold tokenStore.access, tokenStore.set_refresh, localStorage.getItem,
    localStorage.setItem, localStorage.removeItem.
  destruct (truthy v); by simplify_map_eq.
Qed.

Lemma clear_spec (m : gmap string string) :
  tokenStore.clear m = delete "refresh" (delete "access" m).
Proof. reflexivity. Qed.

Lemma access_clear (m : gmap string string) :
  tokenStore.access (tokenStore.clear m) = None.
Proof.
  unfold tokenStore.clear. by rewrite access_set_refresh, access_set_access.
Qed.

Lemma refresh_clear (m : gmap string string) :
  tokenStore.refresh (tokenStore.clear m) = None.
Proof. unfold tokenStore.clear. by rewrite refresh_set_refresh. Qed.

(** C10. Round trip of the token store: a non-empty string written to
    [access] (resp. [refresh]) is what the next read returns; writing
    [null] or any other falsy value removes the key, so the next read
    returns [null]; and after [clear()] both reads return [null],
    whatever the storage held. *)
Theorem tokenStore_round_trip (m : gmap string string) :
  (∀ t, t ≠ "" →
        tokenStore.access (tokenStore.set_access (JStr t) m) = Some t
        ∧ tokenStore.refresh (tokenStore.set_refresh (JStr t) m) = Some t)
  ∧ (∀ v, truthy v = false →
          tokenStore.set_access v m = delete "access" m
          ∧ tokenStore.access (tokenStore.set_access v m) = None
          ∧ tokenStore.set_refresh v m = delete "refresh" m
          ∧ tokenStore.refresh (tokenStore.set_refresh v m) = None)
  ∧ tokenStore.access (tokenStore.clear m) = None
  ∧ tokenStore.refresh (tokenStore.clear m) = None.
Proof.
  split; [|split; [|split]].
  - intros t Ht. rewrite access_set_access, refresh_set_refresh.
    by rewrite truthy_JStr.
  - intros v Hv. rewrite access_set_access, refresh_set_refresh.
    unfold tokenStore.set_access, tokenStore.set_refresh. by rewrite Hv.
  - apply access_clear.
  - apply refresh_clear.
Qed.

Lemma tokenStore_round_trip_witness :
  let m : gmap string string := {["access" := "A1"; "refresh" := "R1"]} in
  "A2" ≠ "" ∧ truthy JNull = false
  ∧ tokenStore.access (tokenStore.set_access (JStr "A2") m) = Some "A2"
  ∧ tokenStore.refresh (tokenStore.set_refresh (JStr "A2") m) = Some "A2"
  ∧ tokenStore.access (tokenStore.set_access JNull m) = None
  ∧ tokenStore.refresh (tokenStore.set_refresh JNull m) = None
  ∧ tokenStore.access (tokenStore.clear m) = None
  ∧ tokenStore.refresh (tokenStore.clear m) = None.
Proof.
  intros m.
  destruct (tokenStore_round_trip m) as (Hset & Hfalsy & Hca & Hcr).
  assert (Hne : "A2" ≠ "") by discriminate.
  destruct (Hset "A2" Hne) as [Ha Hr].
  destruct (Hfalsy JNull eq_refl) as (_ & Hna & _ & Hnr).
  repeat split; assumption || reflexivity.
Defined.

(** ** The request interceptor *)

Lemma request_interceptor_token (m : gmap string string) (config : Config)
      (t : string) :
  tokenStore.access m = Some t → t ≠ "" →
  request_interceptor m config
  = set_headers (<["Authorization" := bearer t]> (headers config)) config.
Proof.
  intros Hm Ht. unfold request_interceptor. rewrite Hm. simpl of_item.
  by rewrite truthy_JStr.
Qed.

Lemma request_interceptor_none (m : gmap string string) (config : Config) :
  truthy (of_item (tokenStore.access m)) = false →
  request_interceptor m config = config.
Proof. intros Hm. unfold request_interceptor. by rewrite Hm. Qed.

Lemma with_defaults_Authorization (config : Config) :
  headers (with_defaults config) !! "Authorization"
  = headers config !! "Authorization".
Proof.
  simpl. rewrite lookup_union_l; [done|]. by rewrite lookup_singleton_ne.
Qed.

Lemma api_request_token (m : gmap string string) (config : Config)
      (t : string) :
  tokenStore.access m = Some t → t ≠ "" →
  headers (api_request m config) !! "Authorization" = Some (bearer t)
  ∧ url (api_request m config) = url config
  ∧ __isRetryRequest (api_request m config) = __isRetryRequest config.
Proof.
  intros Hm Ht. unfold api_request.
  rewrite (request_interceptor_token _ _ t) by done. simpl.
  by rewrite lookup_insert_eq.
Qed.



(** ** Promises *)

Lemma settle_is_Some (p q : nat) (o : PromiseState)
      (ps : gmap nat PromiseState) :
  is_Some (settle p o ps !! q) ↔ is_Some (ps !! q).
Proof.
  unfold settle. destruct (ps !! p) as [[| |]|] eqn:Hp; try done.
  destruct (decide (p = q)) as [->|Hne].
  - rewrite lookup_insert_eq, Hp. split; eauto.
  - by rewrite lookup_insert_ne.
Qed.

Lemma settle_other (p q : nat) (o : PromiseState)
      (ps : gmap nat PromiseState) :
  p ≠ q → settle p o ps !! q = ps !! q.
Proof.
  intros Hne. unfold settle.
  destruct (ps !! p) as [[| |]|]; try done. by rewrite lookup_insert_ne.
Qed.

Lemma settle_pending (p : nat) (o : PromiseState)
      (ps : gmap nat PromiseState) :
  ps !! p = Some Pending → settle p o ps !! p = Some o.
Proof. intros Hp. unfold settle. rewrite Hp. by rewrite lookup_insert_eq. Qed.

(** A promise that is settled stays as it is. *)
Lemma settle_settled (p q : nat) (o : PromiseState)
      (ps : gmap nat PromiseState) (x : PromiseState) :
  ps !! q = Some x → x ≠ Pending → settle p o ps !! q = Some x.
Proof.
  intros Hq Hx. destruct (decide (p = q)) as [->|Hne].
  - unfold settle. rewrite Hq. by destruct x.
  - by rewrite settle_other.
Qed.

Lemma reject_all_is_Some (e : JsError) (l : list nat) (q : nat)
      (ps : gmap nat PromiseState) :
  is_Some (foldl (λ ps p, settle p (Rejected e) ps) ps l !! q)
  ↔ is_Some (ps !! q).
Proof.
  revert ps. induction l as [|p l IH]; intros ps; simpl; [done|].
  rewrite IH. apply settle_is_Some.
Qed.

Lemma reject_all_settled (e : JsError) (l : list nat) (q : nat)
      (ps : gmap nat PromiseState) (x : PromiseState) :
  ps !! q = Some x → x ≠ Pending →
  foldl (λ ps p, settle p (Rejected e) ps) ps l !! q = Some x.
Proof.
  revert ps. induction l as [|p l IH]; intros ps Hq Hx; simpl; [done|].
  apply IH; [|done]. by apply settle_settled.
Qed.

Lemma reject_all_pending (e : JsError) (l : list nat) (q : nat)
      (ps : gmap nat PromiseState) :
  q ∈ l → ps !! q = Some Pending →
  foldl (λ ps p, settle p (Rejected e) ps) ps l !! q = Some (Rejected e).
Proof.
  revert ps. induction l as [|p l IH]; intros ps Hin Hq; simpl.
  - by apply elem_of_nil in Hin.
  - destruct (decide (p = q)) as [->|Hne].
    + apply reject_all_settled; [by apply settle_pending | done].
    + apply IH.
      * apply elem_of_cons in Hin as [?|?]; [congruence | done].
      * by rewrite settle_other.
Qed.

Lemma reject_all_other (e : JsError) (l : list nat) (q : nat)
      (ps : gmap nat PromiseState) :
  q ∉ l → foldl (λ ps p, settle p (Rejected e) ps) ps l !! q = ps !! q.
Proof.
  revert ps. induction l as [|p l IH]; intros ps Hin; simpl; [done|].
  apply not_elem_of_cons in Hin as [Hne Hin].
  rewrite IH by done. by apply settle_other.
Qed.

(** ** onRefreshed *)

Lemma forEach_spec (newAccess : JsVal) (cbs : list Subscriber) (s : State) :
  forEach newAccess cbs s
  = (set_promises (resolve_all newAccess (ls s) cbs (promises s)) s,
     map (λ cb, Replayed (sub_resolve cb) (replay_config newAccess (ls s) cb))
         cbs).
Proof.
  revert s. induction cbs as [|cb cbs IH]; intros s; simpl.
  - by destruct s.
  - rewrite IH. reflexivity.
Qed.

Lemma onRefreshed_spec (newAccess : JsVal) (s : State) :
  onRefreshed newAccess s
  = (set_subscribers []
       (set_promises
          (resolve_all newAccess (ls s) (subscribers s) (promises s)) s),
     map (λ cb, Replayed (sub_resolve cb) (replay_config newAccess (ls s) cb))
         (subscribers s)).
Proof. unfold onRefreshed. by rewrite forEach_spec. Qed.

Lemma resolve_all_is_Some (v : JsVal) (m : gmap string string)
      (cbs : list Subscriber) (q : nat) (ps : gmap nat PromiseState) :
  is_Some (resolve_all v m cbs ps !! q) ↔ is_Some (ps !! q).
Proof.
  unfold resolve_all. revert ps.
  induction cbs as [|cb cbs IH]; intros ps; simpl; [done|].
  rewrite IH. apply settle_is_Some.
Qed.

Lemma resolve_all_settled (v : JsVal) (m : gmap string string)
      (cbs : list Subscriber) (q : nat) (ps : gmap nat PromiseState)
      (x : PromiseState) :
  ps !! q = Some x → x ≠ Pending → resolve_all v m cbs ps !! q = Some x.
Proof.
  unfold resolve_all. revert ps.
  induction cbs as [|cb cbs IH]; intros ps Hq Hx; simpl; [done|].
  apply IH; [|done]. by apply settle_settled.
Qed.

Lemma resolve_all_other (v : JsVal) (m : gmap string string)
      (cbs : list Subscriber) (q : nat) (ps : gmap nat PromiseState) :
  q ∉ map sub_resolve cbs → resolve_all v m cbs ps !! q = ps !! q.
Proof.
  unfold resolve_all. revert ps.
  induction cbs as [|cb cbs IH]; intros ps Hin; simpl; [done|].
  simpl in Hin. apply not_elem_of_cons in Hin as [Hne Hin].
  rewrite IH by done. by apply settle_other.
Qed.

(** With distinct promises in the queue, a pending one ends resolved
    with its own replay. *)
Lemma resolve_all_pending (v : JsVal) (m : gmap string string)
      (cbs : list Subscriber) (cb : Subscriber)
      (ps : gmap nat PromiseState) :
  NoDup (map sub_resolve cbs) → cb ∈ cbs →
  ps !! sub_resolve cb = Some Pending →
  resolve_all v m cbs ps !! sub_resolve cb
  = Some (Resolved (replay_config v m cb)).
Proof.
  unfold resolve_all. revert ps.
  induction cbs as [|c cbs IH]; intros ps Hnd Hin Hp; simpl.
  - by apply elem_of_nil in Hin.
  - simpl in Hnd. apply NoDup_cons in Hnd as [Hc Hnd].
    apply elem_of_cons in Hin as [->|Hin].
    + apply (resolve_all_settled v m); [by apply settle_pending | done].
    + apply IH; [done | done |].
      rewrite settle_other; [done|].
      intros Heq. apply Hc. rewrite Heq.
      apply list_elem_of_fmap. eauto.
Qed.

(** ** The invariant of the module state *)

Lemma wf_init : wf init.
Proof.
  split; simpl; try done.
  - intros p [x Hx]. by rewrite lookup_empty in Hx.
  - constructor.
Qed.

Lemma wf_idle (s : State) :
  wf s → isRefreshing s = false →
  refreshPromise s = None ∧ inflight s = ∅.
Proof.
  intros [Hc _ _ _ _] Hf.
  destruct (refreshPromise s); destruct Hc as [Hc1 Hc2]; [congruence|done].
Qed.

Lemma wf_busy (s : State) :
  wf s → isRefreshing s = true →
  ∃ id, refreshPromise s = Some id
        ∧ inflight s = {[id := cycle_rejects s]}.
Proof.
  intros [Hc _ _ _ _] Hf. unfold cycle_rejects.
  destruct (refreshPromise s) as [id|];
    destruct Hc as [Hc1 Hc2]; [|congruence].
  destruct Hc2 as [l Hl]. exists id. split; [done|].
  rewrite Hl. by rewrite lookup_singleton_eq.
Qed.

(** A refresh call on the wire is the one [refreshPromise] holds. *)
Lemma wf_inflight_lookup (s : State) (id : nat) (l : list nat) :
  wf s → inflight s !! id = Some l →
  isRefreshing s = true ∧ refreshPromise s = Some id
  ∧ inflight s = {[id := l]} ∧ cycle_rejects s = l.
Proof.
  intros [Hc _ _ _ _] Hid. unfold cycle_rejects.
  destruct (refreshPromise s) as [id'|]; destruct Hc as [Hc1 Hc2].
  - destruct Hc2 as [l' Hl']. rewrite Hl' in Hid |- *.
    apply lookup_singleton_Some in Hid as [-> ->].
    by rewrite lookup_singleton_eq.
  - rewrite Hc2 in Hid. by rewrite lookup_empty in Hid.
Qed.

(** *** What the error interceptor does, branch by branch *)

Lemma response_error_pass (error : JsError) (s : State) :
  recoverable error = false →
  response_error error s = (s, [], RetReject error).
Proof.
  intros Hr. unfold response_error. unfold recoverable in Hr. by rewrite Hr.
Qed.

Lemma response_error_no_refresh (error : JsError) (s : State) :
  recoverable error = true → has_refresh s = false →
  response_error error s
  = (set_ls (tokenStore.clear (ls s)) s, [], RetReject error).
Proof.
  intros Hr Hn. unfold response_error.
  unfold recoverable in Hr. unfold has_refresh in Hn. by rewrite Hr, Hn.
Qed.

Lemma response_error_start (error : JsError) (s : State) :
  recoverable error = true → has_refresh s = true →
  wf s → isRefreshing s = false →
  response_error error s
  = (queued_state
       (set_isRetryRequest true (default empty_config (error_config error)))
       (next_id s) [] (set_next_id (S (next_id s)) s),
     [PostRefresh (next_id s)
                  (to_string (of_item (tokenStore.refresh (ls s))))],
     RetPromise (S (next_id s))).
Proof.
  intros Hr Hn Hwf Hidle. unfold response_error.
  unfold recoverable in Hr. unfold has_refresh in Hn. rewrite Hr, Hn, Hidle.
  destruct (wf_idle s Hwf Hidle) as [_ Hfl].
  simpl. unfold queue_request, queued_state, catch_reject. simpl.
  rewrite Hfl, insert_empty, alter_singleton_eq. reflexivity.
Qed.

Lemma response_error_queue (error : JsError) (s : State) :
  recoverable error = true → has_refresh s = true →
  wf s → isRefreshing s = true →
  ∃ id, refreshPromise s = Some id ∧
  response_error error s
  = (queued_state (default empty_config (error_config error))
       id (cycle_rejects s) s,
     [], RetPromise (next_id s)).
Proof.
  intros Hr Hn Hwf Hbusy.
  destruct (wf_busy s Hwf Hbusy) as (id & Hid & Hfl).
  exists id. split; [done|]. unfold response_error.
  unfold recoverable in Hr. unfold has_refresh in Hn. rewrite Hr, Hn, Hbusy.
  simpl. unfold queue_request, queued_state, catch_reject. simpl.
  rewrite Hid. simpl. rewrite Hfl at 1. rewrite alter_singleton_eq.
  unfold set_inflight, addSubscriber, set_subscribers, set_promises,
    set_next_id. simpl. by rewrite Hbusy, Hid.
Qed.

(** The four ways through the error interceptor from a well-formed
    state: queued behind the running refresh, starting one, no refresh
    token, and not recoverable. *)
Ltac response_error_cases error s Hwf :=
  let Hr := fresh "Hr" in
  let Hn := fresh "Hn" in
  let Hb := fresh "Hb" in
  let id := fresh "id" in
  let Hid := fresh "Hid" in
  destruct (recoverable error) eqn:Hr;
  [ destruct (has_refresh s) eqn:Hn;
    [ destruct (isRefreshing s) eqn:Hb;
      [ destruct (response_error_queue error s Hr Hn Hwf Hb)
          as (id & Hid & ->)
      | rewrite (response_error_start error s Hr Hn Hwf Hb) ]
    | rewrite (response_error_no_refresh error s Hr Hn) ]
  | rewrite (response_error_pass error s Hr) ].

(** *** What the end of a refresh call does *)

Lemma refresh_settled_none (id : nat) (r : PostResult) (s : State) :
  inflight s !! id = None → refresh_settled id r s = (s, []).
Proof. intros Hid. unfold refresh_settled. by rewrite Hid. Qed.

Lemma refresh_settled_success (id : nat) (newAccess : JsVal) (s : State) :
  wf s → refreshPromise s = Some id → truthy newAccess = true →
  let m := tokenStore.set_access newAccess (ls s) in
  refresh_settled id (Fulfilled newAccess) s
  = ({| isRefreshing := false;
        refreshPromise := None;
        subscribers := [];
        ls := m;
        inflight := ∅;
        promises := resolve_all newAccess m (subscribers s) (promises s);
        next_id := next_id s |},
     map (λ cb, Replayed (sub_resolve cb) (replay_config newAccess m cb))
         (subscribers s)).
Proof.
  intros Hwf Hid Hv m.
  pose proof (wf_cycle s Hwf) as Hfl. rewrite Hid in Hfl.
  destruct Hfl as [_ [l Hl]].
  unfold refresh_settled. rewrite Hl, lookup_singleton_eq.
  unfold refresh_then. rewrite Hv. simpl negb. cbv iota.
  rewrite onRefreshed_spec. simpl. by rewrite delete_singleton_eq.
Qed.

Lemma refresh_settled_failure (id : nat) (r : PostResult) (e : JsError)
      (s : State) :
  wf s → refreshPromise s = Some id → rejection r = Some e →
  refresh_settled id r s
  = ({| isRefreshing := false;
        refreshPromise := None;
        subscribers := subscribers s;
        ls := tokenStore.clear (ls s);
        inflight := ∅;
        promises := foldl (λ ps p, settle p (Rejected e) ps) (promises s)
                          (cycle_rejects s);
        next_id := next_id s |},
     []).
Proof.
  intros Hwf Hid Hr.
  pose proof (wf_cycle s Hwf) as Hfl. rewrite Hid in Hfl.
  destruct Hfl as [_ [l Hl]].
  unfold refresh_settled, cycle_rejects.
  rewrite Hid, Hl, lookup_singleton_eq. simpl default.
  assert (Hthen : ∀ s0, refresh_then r s0 = (s0, [], inr e)).
  { intros s0. destruct r as [v|e0]; simpl in Hr |- *.
    - destruct (truthy v); [done|]. simpl. congruence.
    - congruence. }
  rewrite Hthen. simpl. by rewrite delete_singleton_eq.
Qed.

(** *** The invariant holds in every reachable state *)

Lemma wf_set_ls (m : gmap string string) (s : State) :
  wf s → wf (set_ls m s).
Proof. intros [? ? ? ? ?]. by split. Qed.

Lemma wf_queued_state (original : Config) (id : nat) (l : list nat)
      (s : State) :
  Forall (λ p, promises s !! p = Some Pending) l →
  (∀ p, is_Some (promises s !! p) → p < next_id s) →
  Forall (λ cb, sub_resolve cb < next_id s) (subscribers s) →
  NoDup (map sub_resolve (subscribers s)) →
  wf (queued_state original id l s).
Proof.
  intros Hp Hlt Hs Hnd.
  assert (Hfresh : promises s !! next_id s = None).
  { destruct (promises s !! next_id s) eqn:E; [|done].
    assert (next_id s < next_id s) by eauto. lia. }
  split; simpl.
  - eauto.
  - unfold cycle_rejects. simpl. rewrite lookup_singleton_eq. simpl.
    apply Forall_app. split.
    + eapply Forall_impl; [exact Hp|]. intros p Hpp. simpl in Hpp.
      rewrite lookup_insert_ne; [done|]. intros <-. congruence.
    + repeat constructor. by rewrite lookup_insert_eq.
  - intros p. rewrite lookup_insert_is_Some.
    intros [->|[_ H]]; [lia|]. apply Hlt in H. lia.
  - apply Forall_app. split.
    + eapply Forall_impl; [exact Hs|]. simpl. lia.
    + by repeat constructor.
  - rewrite map_app. simpl. apply NoDup_app. split; [done|]. split.
    + intros x Hx. rewrite list_elem_of_singleton. intros ->.
      apply list_elem_of_fmap in Hx as (cb & Heq & Hcb).
      rewrite Forall_forall in Hs. apply Hs in Hcb. lia.
    + apply NoDup_singleton.
Qed.

Lemma wf_response_error (error : JsError) (s : State) :
  wf s → wf (response_error error s).1.1.
Proof.
  intros Hwf. response_error_cases error s Hwf.
  - destruct Hwf. by apply wf_queued_state.
  - destruct Hwf. apply wf_queued_state; simpl; try done.
    + intros p Hp. apply wf_promises0 in Hp. lia.
    + eapply Forall_impl; [exact wf_subscribers0|]. simpl. lia.
  - by apply wf_set_ls.
  - done.
Qed.

Lemma wf_refresh_settled (id : nat) (r : PostResult) (s : State) :
  wf s → wf (refresh_settled id r s).1.
Proof.
  intros Hwf.
  destruct (inflight s !! id) as [l|] eqn:Hid;
    [|by rewrite refresh_settled_none].
  destruct (wf_inflight_lookup s id l Hwf Hid) as (_ & Hrp & _ & _).
  destruct (rejection r) as [e|] eqn:Hr.
  - rewrite (refresh_settled_failure id r e) by done.
    destruct Hwf. split; simpl; try done.
    intros p Hp. apply wf_promises0. by apply reject_all_is_Some in Hp.
  - destruct r as [v|e]; [|done]. simpl in Hr.
    destruct (truthy v) eqn:Hv; [|done].
    rewrite refresh_settled_success by done.
    destruct Hwf. split; simpl; try done.
    + intros p Hp. apply wf_promises0. by apply resolve_all_is_Some in Hp.
    + constructor.
Qed.

Lemma wf_step (ev : Event) (s : State) : wf s → wf (step ev s).1.
Proof.
  intros Hwf. destruct ev as [c|error|id r|k v|k]; simpl.
  - done.
  - pose proof (wf_response_error error s Hwf) as H.
    by destruct (response_error error s) as [[s1 eff] ret].
  - pose proof (wf_refresh_settled id r s Hwf) as H.
    by destruct (refresh_settled id r s) as [s1 eff].
  - by apply wf_set_ls.
  - by apply wf_set_ls.
Qed.

Lemma run_cons (ev : Event) (evs : list Event) (s : State) :
  run (ev :: evs) s
  = ((run evs (step ev s).1).1, (step ev s).2 ++ (run evs (step ev s).1).2).
Proof.
  simpl. destruct (step ev s) as [s1 o1]. simpl.
  by destruct (run evs s1) as [s2 o2].
Qed.

Lemma run_app (evs1 evs2 : list Event) (s : State) :
  run (evs1 ++ evs2) s
  = ((run evs2 (run evs1 s).1).1,
     (run evs1 s).2 ++ (run evs2 (run evs1 s).1).2).
Proof.
  revert s. induction evs1 as [|ev evs1 IH]; intros s.
  - simpl. by destruct (run evs2 s).
  - rewrite <- app_comm_cons, !run_cons, IH. simpl. by rewrite app_assoc.
Qed.

Lemma wf_run (evs : list Event) (s : State) : wf s → wf (run evs s).1.
Proof.
  revert s. induction evs as [|ev evs IH]; intros s Hwf; [done|].
  rewrite run_cons. simpl. apply IH. by apply wf_step.
Qed.

Lemma wf_reachable (s : State) : reachable s → wf s.
Proof. intros [evs <-]. apply wf_run, wf_init. Qed.


(** ** Reading the log of a run *)

Lemma posts_app (l1 l2 : list Obs) : posts (l1 ++ l2) = posts l1 ++ posts l2.
Proof. apply flat_map_app. Qed.

Lemma queued_app (l1 l2 : list Obs) :
  queued (l1 ++ l2) = queued l1 ++ queued l2.
Proof. apply flat_map_app. Qed.

Lemma replays_app (l1 l2 : list Obs) :
  replays (l1 ++ l2) = replays l1 ++ replays l2.
Proof. apply flat_map_app. Qed.

Lemma step_response_error (error : JsError) (s : State) :
  step (ResponseError error) s
  = ((response_error error s).1.1,
     map Did (response_error error s).1.2
     ++ [Returned error (response_error error s).2]).
Proof. simpl. by destruct (response_error error s) as [[s1 eff] ret]. Qed.

Lemma step_refresh_settled (id : nat) (r : PostResult) (s : State) :
  step (RefreshSettled id r) s
  = ((refresh_settled id r s).1, map Did (refresh_settled id r s).2).
Proof. simpl. by destruct (refresh_settled id r s) as [s1 eff]. Qed.

(** While no refresh call settles, the queue and the handlers on the
    running chain grow by exactly the promises handed out, in order, and
    a running refresh keeps running with no further call issued. *)
Lemma step_tracks (ev : Event) (s : State) :
  wf s → is_settle ev = false →
  map sub_resolve (subscribers (step ev s).1)
  = map sub_resolve (subscribers s) ++ queued (step ev s).2
  ∧ cycle_rejects (step ev s).1 = cycle_rejects s ++ queued (step ev s).2
  ∧ (isRefreshing s = true →
     isRefreshing (step ev s).1 = true
     ∧ refreshPromise (step ev s).1 = refreshPromise s
     ∧ posts (step ev s).2 = []).
Proof.
  intros Hwf Hev.
  destruct ev as [c|error|id r|k v|k]; try done;
    try (simpl; by rewrite !app_nil_r).
  rewrite step_response_error. response_error_cases error s Hwf.
  - simpl. unfold cycle_rejects at 1. simpl.
    rewrite lookup_singleton_eq, map_app. by simpl.
  - simpl. destruct (wf_idle s Hwf Hb) as [Hnone _].
    unfold cycle_rejects. simpl.
    rewrite lookup_singleton_eq, Hnone, map_app. by simpl.
  - simpl. by rewrite !app_nil_r.
  - simpl. by rewrite !app_nil_r.
Qed.

Lemma run_tracks (evs : list Event) (s : State) :
  wf s → Forall (λ ev, is_settle ev = false) evs →
  map sub_resolve (subscribers (run evs s).1)
  = map sub_resolve (subscribers s) ++ queued (run evs s).2
  ∧ cycle_rejects (run evs s).1 = cycle_rejects s ++ queued (run evs s).2
  ∧ (isRefreshing s = true →
     isRefreshing (run evs s).1 = true
     ∧ refreshPromise (run evs s).1 = refreshPromise s
     ∧ posts (run evs s).2 = []).
Proof.
  intros Hwf Hevs. revert s Hwf.
  induction Hevs as [|ev evs Hev Hevs IH]; intros s Hwf.
  - simpl. by rewrite !app_nil_r.
  - rewrite run_cons. simpl.
    destruct (step_tracks ev s Hwf Hev) as (H1 & H2 & H3).
    destruct (IH (step ev s).1 (wf_step ev s Hwf)) as (I1 & I2 & I3).
    rewrite I1, I2, H1, H2, queued_app, posts_app, !app_assoc.
    split; [done|]. split; [done|].
    intros Hb. destruct (H3 Hb) as (Hb1 & Hp1 & Hq1).
    destruct (I3 Hb1) as (Hb2 & Hp2 & Hq2).
    rewrite Hb2, Hp2, Hp1, Hq1, Hq2. done.
Qed.

(** ** Single flight *)







(** The same with anything but the end of a refresh call in between. *)







(** ** No refresh token *)

(** A retried request that fails with 401 is rejected and nothing else
    happens. *)
Lemma retried_is_rejected (error : JsError) (s : State) :
  __isRetryRequest (default empty_config (error_config error)) = true →
  response_error error s = (s, [], RetReject error).
Proof.
  intros Hretry. apply response_error_pass. unfold recoverable.
  rewrite Hretry. by rewrite andb_false_r.
Qed.

(** A request is retried after a refresh; meanwhile a login whose
    response carries only [access] leaves the store without a refresh
    token; the retried request fails with 401 again and the interceptor
    rejects it without touching the store, which keeps the access
    token. *)
Lemma retried_401_keeps_store : ¬ no_refresh_as_stated.
Proof.
  intros H.
  set (evs := login (JStr "A1") (JStr "R1")
              ++ [ResponseError (unauthorized "/api/cart/");
                  RefreshSettled 0 (Fulfilled (JStr "A2"))]
              ++ login (JStr "A3") JUndefined).
  set (again :=
         AxiosError
           (Some (replay_config (JStr "A2") {["access" := "A2"]}
                    {| sub_original :=
                         set_isRetryRequest true
                           {| url := "/api/cart/"; headers := ∅;
                              __isRetryRequest := false |};
                       sub_resolve := 1 |}))
           (Some 401%Z)).
  assert (Hs : reachable (run evs init).1) by (by exists evs).
  destruct (H (run evs init).1 again Hs eq_refl eq_refl) as (Ha & _).
  vm_compute in Ha. discriminate.
Qed.

(** C5 (amended). Every request that receives a 401 while the store
    holds no refresh token is rejected with the error it came with, and
    nothing else happens to it: no refresh call, nothing queued, nothing
    replayed, the refresh state as it was. The store is cleared if the
    request is not yet marked as retried; for a request already retried
    the interceptor leaves the store, and the whole state, as it is. *)
Theorem no_refresh_token_path (s : State) (error : JsError) :
  error_status error = Some 401%Z →
  truthy (of_item (tokenStore.refresh (ls s))) = false →
  let r := response_error error s in
  let original := default empty_config (error_config error) in
  r.2 = RetReject error
  ∧ r.1.2 = []
  ∧ (step (ResponseError error) s).2 = [Returned error (RetReject error)]
  ∧ posts (step (ResponseError error) s).2 = []
  ∧ replays (step (ResponseError error) s).2 = []
  ∧ queued (step (ResponseError error) s).2 = []
  ∧ subscribers r.1.1 = subscribers s
  ∧ (isRefreshing r.1.1, refreshPromise r.1.1, inflight r.1.1)
    = (isRefreshing s, refreshPromise s, inflight s)
  ∧ promises r.1.1 = promises s
  ∧ (__isRetryRequest original = false →
     r.1.1 = set_ls (tokenStore.clear (ls s)) s
     ∧ tokenStore.access (ls r.1.1) = None
     ∧ tokenStore.refresh (ls r.1.1) = None)
  ∧ (__isRetryRequest original = true → r.1.1 = s).
Proof.
  intros Hst Hnone r original. subst r.
  rewrite step_response_error.
  destruct (__isRetryRequest original) eqn:Hretry; subst original.
  - rewrite retried_is_rejected by done. simpl. by repeat split.
  - assert (Hr : recoverable error = true).
    { unfold recoverable. rewrite Hretry.
      by rewrite bool_decide_eq_true_2. }
    rewrite response_error_no_refresh by done. simpl.
    rewrite access_clear, refresh_clear. by repeat split.
Qed.

Lemma no_refresh_token_path_witness :
  let s := (run (login (JStr "A1") JUndefined) init).1 in
  let error := unauthorized "/api/cart/" in
  let again := unauthorized_again "/api/cart/" in
  tokenStore.access (ls s) = Some "A1"
  ∧ (response_error error s).2 = RetReject error
  ∧ tokenStore.access (ls (response_error error s).1.1) = None
  ∧ posts (step (ResponseError error) s).2 = []
  ∧ (response_error again s).2 = RetReject again
  ∧ (response_error again s).1.1 = s.
Proof.
  intros s error again.
  destruct (no_refresh_token_path s error eq_refl eq_refl)
    as (H1 & _ & _ & H4 & _ & _ & _ & _ & _ & H10 & _).
  destruct (H10 eq_refl) as (_ & Ha & _).
  destruct (no_refresh_token_path s again eq_refl eq_refl)
    as (A1 & _ & _ & _ & _ & _ & _ & _ & _ & _ & A11).
  split; [reflexivity|]. split; [exact H1|]. split; [exact Ha|].
  split; [exact H4|]. split; [exact A1|]. exact (A11 eq_refl).
Defined.

Example retried_request_is_the_replay :
  replays
    (run (login (JStr "A1") (JStr "R1")
          ++ [ResponseError (unauthorized "/api/cart/");
              RefreshSettled 0 (Fulfilled (JStr "A2"))]) init).2
  = [(1, replay_config (JStr "A2") {["access" := "A2"]}
           {| sub_original :=
                set_isRetryRequest true
                  {| url := "/api/cart/"; headers := ∅;
                     __isRetryRequest := false |};
              sub_resolve := 1 |})].
Proof. vm_compute. reflexivity. Qed.

(** ** Retry at most once *)

(** The request that starts the refresh is queued with the mark set. *)
Lemma starter_is_marked (error : JsError) (s : State) :
  recoverable error = true → has_refresh s = true →
  wf s → isRefreshing s = false →
  ∃ cb, last (subscribers (response_error error s).1.1) = Some cb
        ∧ __isRetryRequest (sub_original cb) = true.
Proof.
  intros Hr Hn Hwf Hidle. rewrite response_error_start by done. simpl.
  eexists. by rewrite last_snoc.
Qed.

(** A request queued behind a running refresh keeps its config as it
    came, so its replay is not marked and a 401 on the replay is
    recoverable again. *)
Lemma follower_is_not_marked (error : JsError) (s : State) :
  recoverable error = true → has_refresh s = true →
  wf s → isRefreshing s = true →
  ∃ cb, last (subscribers (response_error error s).1.1) = Some cb
        ∧ __isRetryRequest (sub_original cb) = false
        ∧ ∀ v m, recoverable
                   (AxiosError (Some (replay_config v m cb)) (Some 401%Z))
                 = true.
Proof.
  intros Hr Hn Hwf Hb.
  destruct (response_error_queue error s Hr Hn Hwf Hb) as (id & _ & ->).
  simpl. eexists. rewrite last_snoc. split; [done|].
  unfold recoverable in Hr. apply andb_true_iff in Hr as [_ Hr].
  apply negb_true_iff in Hr. split; [done|].
  intros v m. unfold recoverable, replay_config, api_request. simpl.
  unfold request_interceptor.
  destruct (truthy _); simpl; by rewrite Hr.
Qed.

(** C3, at the failing input. Two requests fail with 401 and the
    refresh succeeds: both are replayed, the first marked as retried,
    the second not. A 401 on the first replay is rejected; a 401 on the
    second starts a second refresh call and queues the request once
    more. *)
Theorem queued_request_recovers_twice :
  let evs := login (JStr "A1") (JStr "R1")
             ++ [ResponseError (unauthorized "/a");
                 ResponseError (unauthorized "/b");
                 RefreshSettled 0 (Fulfilled (JStr "A2"))] in
  let s := (run evs init).1 in
  let log := (run evs init).2 in
  ∃ ca cb,
    replays log = [(1, ca); (2, cb)]
    ∧ (url ca, __isRetryRequest ca) = ("/a", true)
    ∧ (url cb, __isRetryRequest cb) = ("/b", false)
    ∧ isRefreshing s = false
    ∧ step (ResponseError (AxiosError (Some ca) (Some 401%Z))) s
      = (s, [Returned (AxiosError (Some ca) (Some 401%Z))
                      (RetReject (AxiosError (Some ca) (Some 401%Z)))])
    ∧ (step (ResponseError (AxiosError (Some cb) (Some 401%Z))) s).2
      = [Did (PostRefresh 3 "R1");
         Returned (AxiosError (Some cb) (Some 401%Z)) (RetPromise 4)].
Proof.
  intros evs s log. eexists _, _.
  split; [vm_compute; reflexivity|].
  repeat split; vm_compute; reflexivity.
Qed.

(** ** A refresh that fails *)

(** The failure path never touches [subscribers]. *)
Lemma failure_keeps_subscribers (id : nat) (r : PostResult) (e : JsError)
      (s : State) :
  wf s → refreshPromise s = Some id → rejection r = Some e →
  subscribers (refresh_settled id r s).1 = subscribers s.
Proof.
  intros Hwf Hid Hr. by rewrite (refresh_settled_failure id r e).
Qed.

(** C2, at the failing input. A request is queued and the refresh
    fails: the store is cleared, the caller is rejected with the error
    of the refresh and the state is idle, but the callback is still in
    [subscribers]. After the next login a later request starts a new
    refresh, and when that one succeeds the callback left over from the
    failed cycle runs: the old request goes on the wire again with the
    new token, while its caller stays rejected. *)
Theorem failed_cycle_callback_survives :
  let e := AxiosError None (Some 401%Z) in
  let evs1 := login (JStr "A1") (JStr "R1")
              ++ [ResponseError (unauthorized "/old");
                  RefreshSettled 0 (Failed e)] in
  let s1 := (run evs1 init).1 in
  let evs2 := login (JStr "A3") (JStr "R3")
              ++ [ResponseError (unauthorized "/new");
                  RefreshSettled 2 (Fulfilled (JStr "A4"))] in
  let s2 := (run evs2 s1).1 in
  (tokenStore.access (ls s1), tokenStore.refresh (ls s1)) = (None, None)
  ∧ isRefreshing s1 = false
  ∧ promises s1 !! 1 = Some (Rejected e)
  ∧ map (λ cb, (url (sub_original cb), sub_resolve cb)) (subscribers s1)
    = [("/old", 1)]
  ∧ map (λ pc, (pc.1, url pc.2, headers pc.2 !! "Authorization"))
        (replays (run evs2 s1).2)
    = [(1, "/old", Some "Bearer A4"); (3, "/new", Some "Bearer A4")]
  ∧ promises s2 !! 1 = Some (Rejected e).
Proof. intros e evs1 s1 evs2 s2. repeat split; vm_compute; reflexivity. Qed.

(** ** Tracking the queue along a run *)

Lemma queued_requests_app (l1 l2 : list Obs) :
  queued_requests (l1 ++ l2) = queued_requests l1 ++ queued_requests l2.
Proof. apply flat_map_app. Qed.

Lemma queued_requests_ids (log : list Obs) :
  map (λ k, k.1.1) (queued_requests log) = queued log.
Proof.
  induction log as [|o log IH]; [done|].
  change (o :: log) with ([o] ++ log).
  rewrite queued_requests_app, queued_app, map_app, IH. f_equal.
  destruct o as [|error [|p]]; by simpl.
Qed.

Lemma step_tracks_requests (ev : Event) (s : State) :
  wf s → is_settle ev = false →
  map sub_key (subscribers (step ev s).1)
  = map sub_key (subscribers s) ++ queued_requests (step ev s).2.
Proof.
  intros Hwf Hev.
  destruct ev as [c|error|id r|k v|k]; try done;
    try (simpl; by rewrite !app_nil_r).
  rewrite step_response_error.
  response_error_cases error s Hwf; simpl;
    by rewrite ?map_app, ?app_nil_r.
Qed.

Lemma run_tracks_requests (evs : list Event) (s : State) :
  wf s → Forall (λ ev, is_settle ev = false) evs →
  map sub_key (subscribers (run evs s).1)
  = map sub_key (subscribers s) ++ queued_requests (run evs s).2.
Proof.
  intros Hwf Hevs. revert s Hwf.
  induction Hevs as [|ev evs Hev Hevs IH]; intros s Hwf.
  - simpl. by rewrite app_nil_r.
  - rewrite run_cons. simpl.
    rewrite IH by by apply wf_step.
    rewrite step_tracks_requests by done.
    by rewrite queued_requests_app, app_assoc.
Qed.

Lemma replays_of_subscribers (f : Subscriber → Config)
      (cbs : list Subscriber) :
  replays (map Did (map (λ cb, Replayed (sub_resolve cb) (f cb)) cbs))
  = map (λ cb, (sub_resolve cb, f cb)) cbs.
Proof. induction cbs as [|cb cbs IH]; [done|]. simpl. by rewrite <- IH. Qed.

Lemma posts_response_error (error : JsError) (s : State) :
  (response_error error s).1.2 = []
  ∨ ∃ R, tokenStore.refresh (ls s) = Some R ∧ R ≠ ""
         ∧ isRefreshing s = false ∧ recoverable error = true
         ∧ (response_error error s).1.2 = [PostRefresh (next_id s) R].
Proof.
  unfold response_error, recoverable.
  destruct (_ && _); [|by left].
  destruct (truthy (of_item (tokenStore.refresh (ls s)))) eqn:Hn;
    [|by left].
  simpl negb. cbv iota.
  destruct (isRefreshing s) eqn:Hb; simpl.
  - by left.
  - right. apply truthy_of_item_Some in Hn as (R & HR & Hne).
    exists R. rewrite HR. by repeat split.
Qed.

Lemma replays_map_Did_nil (eff : list Effect) :
  (∀ p c, Replayed p c ∉ eff) → replays (map Did eff) = [].
Proof.
  induction eff as [|e eff IH]; intros H; [done|].
  simpl. rewrite IH.
  - destruct e as [c|p c|id r]; try done.
    exfalso. apply (H p c). by left.
  - intros p c Hin. apply (H p c). by right.
Qed.

Lemma replays_response_error (error : JsError) (s : State) :
  replays (step (ResponseError error) s).2 = [].
Proof.
  rewrite step_response_error. simpl. rewrite replays_app. simpl.
  rewrite app_nil_r. apply replays_map_Did_nil. intros p c.
  destruct (posts_response_error error s) as [->|(R & _ & _ & _ & _ & ->)].
  - apply not_elem_of_nil.
  - intros Hin. by apply list_elem_of_singleton in Hin.
Qed.

(** A step either replays nothing, and then every callback in the queue
    afterwards was there before or belongs to a promise made by the
    step, or it calls exactly the callbacks of the queue and leaves the
    queue empty. *)
Lemma step_replays (ev : Event) (s : State) :
  wf s →
  (next_id s ≤ next_id (step ev s).1)%nat
  ∧ ((replays (step ev s).2 = []
      ∧ Forall (λ p, p ∈ map sub_resolve (subscribers s) ∨ (next_id s ≤ p)%nat)
               (map sub_resolve (subscribers (step ev s).1)))
     ∨ (map fst (replays (step ev s).2) = map sub_resolve (subscribers s)
        ∧ subscribers (step ev s).1 = [])).
Proof.
  intros Hwf.
  assert (Hsame : Forall (λ p, p ∈ map sub_resolve (subscribers s)
                               ∨ (next_id s ≤ p)%nat)
                         (map sub_resolve (subscribers s)))
    by (apply Forall_forall; auto).
  destruct ev as [c|error|id r|k v|k]; try (split; [simpl; lia|by left]).
  - split.
    + rewrite step_response_error. simpl.
      response_error_cases error s Hwf; simpl; lia.
    + left. split; [apply replays_response_error|].
      rewrite step_response_error. simpl.
      response_error_cases error s Hwf; simpl; try done.
      * rewrite map_app. apply Forall_app. split; [done|].
        constructor; [simpl; right; lia | constructor].
      * rewrite map_app. apply Forall_app. split; [done|].
        constructor; [simpl; right; lia | constructor].
  - rewrite step_refresh_settled. simpl.
    destruct (inflight s !! id) as [l|] eqn:Hin;
      [|rewrite refresh_settled_none by done; split; [simpl; lia|by left]].
    destruct (wf_inflight_lookup s id l Hwf Hin) as (_ & Hid & _ & _).
    destruct (rejection r) as [e|] eqn:Hr.
    + rewrite (refresh_settled_failure id r e) by done.
      split; [simpl; lia|by left].
    + destruct r as [v|e]; [|done]. simpl in Hr.
      destruct (truthy v) eqn:Hv; [|done].
      rewrite refresh_settled_success by done. simpl.
      split; [lia|]. right.
      rewrite replays_of_subscribers, map_map. done.
Qed.

Lemma run_replays_once (evs : list Event) (s : State) :
  wf s →
  NoDup (map fst (replays (run evs s).2))
  ∧ Forall (λ p, p ∈ map sub_resolve (subscribers s) ∨ (next_id s ≤ p)%nat)
           (map fst (replays (run evs s).2)).
Proof.
  revert s. induction evs as [|ev evs IH]; intros s Hwf.
  - simpl. split; constructor.
  - rewrite run_cons. simpl. rewrite replays_app, map_app.
    destruct (IH (step ev s).1 (wf_step ev s Hwf)) as [Hnd Hall].
    destruct (step_replays ev s Hwf) as [Hle [[Hnil Hsubs]|[Hids Hsubs]]].
    + rewrite Hnil. simpl. split; [done|].
      rewrite Forall_forall in Hall, Hsubs |- *.
      intros p Hp. destruct (Hall p Hp) as [Hin|Hge].
      * by apply Hsubs.
      * right. lia.
    + rewrite Hids. rewrite Hsubs in Hall.
      pose proof (wf_subscribers s Hwf) as Hlt.
      rewrite Forall_forall in Hall. rewrite Forall_forall in Hlt.
      assert (Hnew : ∀ p, p ∈ map fst (replays (run evs (step ev s).1).2) →
                          (next_id s ≤ p)%nat).
      { intros p Hp. destruct (Hall p Hp) as [Hin|Hge]; [|lia].
        by apply elem_of_nil in Hin. }
      split.
      * apply NoDup_app. split; [by apply wf_nodup|]. split; [|done].
        intros p Hp Hp'. apply Hnew in Hp'.
        apply list_elem_of_fmap in Hp as (cb & -> & Hcb).
        apply Hlt in Hcb. lia.
      * apply Forall_app. split; apply Forall_forall; intros p Hp.
        -- by left.
        -- right. by apply Hnew.
Qed.

(** A step that is not the end of a refresh call replays nothing. *)
Lemma run_replays_nil (evs : list Event) (s : State) :
  Forall (λ ev, is_settle ev = false) evs → replays (run evs s).2 = [].
Proof.
  intros Hevs. revert s.
  induction Hevs as [|ev evs Hev Hevs IH]; intros s; [done|].
  rewrite run_cons. simpl snd. rewrite replays_app, IH, app_nil_r.
  destruct ev as [c|error|id r|k v|k]; try done.
  apply replays_response_error.
Qed.

(** The config a subscriber sends once the new token is stored: the
    queued request, with [Authorization] set to the new token and the
    other headers as they were (plus the default of the instance). The
    callback writes the header itself, and the request interceptor
    writes the same one again unless the token was stored as the empty
    string. *)
Lemma replay_config_spec (v : JsVal) (m : gmap string string)
      (cb : Subscriber) :
  truthy v = true →
  let c := replay_config v (tokenStore.set_access v m) cb in
  headers c !! "Authorization" = Some (bearer (to_string v))
  ∧ url c = url (sub_original cb)
  ∧ __isRetryRequest c = __isRetryRequest (sub_original cb)
  ∧ ∀ k, k ≠ "Authorization" →
         headers c !! k
         = (headers (sub_original cb) ∪ {["Accept" := "application/json"]})
             !! k.
Proof.
  intros Hv c. subst c. unfold replay_config.
  pose proof (access_set_access v m) as Hacc. rewrite Hv in Hacc.
  destruct (String.eqb_spec (to_string v) "") as [He|Hne].
  - unfold api_request. rewrite request_interceptor_none
      by (rewrite Hacc, He; reflexivity).
    split; [|repeat split].
    + rewrite with_defaults_Authorization. simpl. by rewrite lookup_insert_eq.
    + intros k Hk. simpl. rewrite !lookup_union.
      by rewrite lookup_insert_ne.
  - destruct (api_request_token _
                (set_headers (<["Authorization" := bearer (to_string v)]>
                                (headers (sub_original cb))) (sub_original cb))
                _ Hacc Hne) as (H1 & H2 & H3).
    repeat split; try done.
    intros k Hk. unfold api_request.
    rewrite (request_interceptor_token _ _ _ Hacc Hne). simpl.
    rewrite lookup_insert_ne by done.
    rewrite !lookup_union. by rewrite lookup_insert_ne.
Qed.

Lemma success_replays_headers (s : State) (id : nat) (newAccess : JsVal) :
  wf s → refreshPromise s = Some id → truthy newAccess = true →
  Forall (λ pc, headers pc.2 !! "Authorization"
                = Some (bearer (to_string newAccess)))
         (replays (step (RefreshSettled id (Fulfilled newAccess)) s).2).
Proof.
  intros Hwf Hid Hv. rewrite step_refresh_settled.
  rewrite refresh_settled_success by done. simpl.
  rewrite replays_of_subscribers.
  apply Forall_forall. intros pc Hpc.
  apply list_elem_of_fmap in Hpc as (cb & -> & _). simpl.
  by destruct (replay_config_spec newAccess (ls s) cb Hv) as (H1 & _).
Qed.

(** ** One refresh cycle

    The run [evs] from a reachable state [s0] settles no refresh call
    and ends in [s] with the refresh numbered [id] running: the requests
    queued in the log of [evs] are queued behind that refresh. *)

Section Cycle.

Variables (s0 : State) (evs : list Event) (id : nat).
Hypothesis Hs0 : reachable s0.
Hypothesis Hevs : Forall (λ ev, is_settle ev = false) evs.
Let s := (run evs s0).1.
Hypothesis Hid : refreshPromise s = Some id.

Local Lemma cycle_wf : wf s.
Proof. apply wf_run. by apply wf_reachable. Qed.

Local Lemma cycle_pending (p : nat) :
  p ∈ queued (run evs s0).2 → promises s !! p = Some Pending.
Proof.
  intros Hp.
  destruct (run_tracks evs s0 (wf_reachable s0 Hs0) Hevs) as (_ & Hrej & _).
  pose proof (wf_pending s cycle_wf) as Hpend.
  rewrite Forall_forall in Hpend. apply Hpend.
  fold s in Hrej. rewrite Hrej. apply elem_of_app. by right.
Qed.

Local Lemma cycle_rejects_queued (p : nat) :
  p ∈ queued (run evs s0).2 → p ∈ cycle_rejects s.
Proof.
  intros Hp.
  destruct (run_tracks evs s0 (wf_reachable s0 Hs0) Hevs) as (_ & Hrej & _).
  fold s in Hrej. rewrite Hrej. apply elem_of_app. by right.
Qed.

(** What does hold when the refresh fails: the store loses both tokens,
    the refresh state is idle again, nothing is replayed, and every
    request queued behind the refresh is rejected with its error. *)
Lemma failure_fan_out (r : PostResult) (e : JsError) :
  rejection r = Some e →
  let s' := (step (RefreshSettled id r) s).1 in
  tokenStore.access (ls s') = None
  ∧ tokenStore.refresh (ls s') = None
  ∧ isRefreshing s' = false ∧ refreshPromise s' = None ∧ inflight s' = ∅
  ∧ (step (RefreshSettled id r) s).2 = []
  ∧ ∀ p, p ∈ queued (run evs s0).2 → promises s' !! p = Some (Rejected e).
Proof.
  intros Hr s'. subst s'. rewrite step_refresh_settled.
  rewrite (refresh_settled_failure id r e) by (done || apply cycle_wf).
  simpl. rewrite access_clear, refresh_clear. repeat split; try done.
  intros p Hp.
  apply reject_all_pending;
    [by apply cycle_rejects_queued | by apply cycle_pending].
Qed.

(** What a successful end of the refresh does to the queue. *)
Lemma success_replays (newAccess : JsVal) :
  truthy newAccess = true →
  let r := step (RefreshSettled id (Fulfilled newAccess)) s in
  replays r.2
  = map (λ cb, (sub_resolve cb, replay_config newAccess (ls r.1) cb))
        (subscribers s)
  ∧ map sub_key (subscribers s)
    = map sub_key (subscribers s0) ++ queued_requests (run evs s0).2
  ∧ NoDup (map sub_resolve (subscribers s))
  ∧ ls r.1 = tokenStore.set_access newAccess (ls s)
  ∧ subscribers r.1 = [] ∧ isRefreshing r.1 = false
  ∧ refreshPromise r.1 = None ∧ inflight r.1 = ∅
  ∧ ∀ cb, cb ∈ subscribers s →
          sub_resolve cb ∈ queued (run evs s0).2 →
          promises r.1 !! sub_resolve cb
          = Some (Resolved (replay_config newAccess (ls r.1) cb)).
Proof.
  intros Hv r. pose proof cycle_wf as Hwf.
  subst r. rewrite step_refresh_settled.
  rewrite refresh_settled_success by done. simpl.
  rewrite replays_of_subscribers.
  split; [done|].
  split; [apply run_tracks_requests; [by apply wf_reachable | done]|].
  split; [by apply wf_nodup|]. repeat split; try done.
  intros cb Hcb Hq.
  apply resolve_all_pending;
    [by apply wf_nodup | done | by apply cycle_pending].
Qed.

(** Once called, a callback of the queue is never called again:
    [onRefreshed] empties the queue, and promises made later have other
    numbers. *)
Local Lemma replayed_once_for_all (newAccess : JsVal) (evs' : list Event)
      (p : nat) :
  truthy newAccess = true → p ∈ map sub_resolve (subscribers s) →
  count_occ Nat.eq_dec
    (map fst (replays
       (run (evs ++ RefreshSettled id (Fulfilled newAccess) :: evs') s0).2)) p
  = 1.
Proof.
  intros Hv Hp. pose proof cycle_wf as Hwf.
  rewrite run_app. fold s. cbn [snd]. rewrite run_cons. cbn [snd].
  set (r := step (RefreshSettled id (Fulfilled newAccess)) s).
  rewrite !replays_app, !map_app, !count_occ_app.
  rewrite run_replays_nil by done.
  change (count_occ Nat.eq_dec (map fst []) p) with 0.
  destruct (success_replays newAccess Hv)
    as (Hrep & _ & Hnd & _ & Hsubs & _).
  fold r in Hrep, Hsubs.
  assert (Hone : count_occ Nat.eq_dec (map fst (replays r.2)) p = 1).
  { rewrite Hrep, map_map. simpl.
    apply NoDup_count_occ'; [apply NoDup_ListNoDup; exact Hnd|].
    by apply list_elem_of_In. }
  assert (Hnone : count_occ Nat.eq_dec
                    (map fst (replays (run evs' r.1).2)) p = 0).
  { apply count_occ_not_In. rewrite <- list_elem_of_In. intros Hin.
    destruct (run_replays_once evs' r.1) as [_ Hall];
      [subst r; by apply wf_step|].
    rewrite Forall_forall in Hall.
    destruct (Hall p Hin) as [Hq|Hge].
    - rewrite Hsubs in Hq. by apply elem_of_nil in Hq.
    - destruct (step_replays (RefreshSettled id (Fulfilled newAccess)) s Hwf)
        as [Hle _].
      fold r in Hle.
      pose proof (wf_subscribers s Hwf) as Hlt.
      rewrite Forall_forall in Hlt.
      apply list_elem_of_fmap in Hp as (cb & -> & Hcb).
      apply Hlt in Hcb. lia. }
  rewrite Hone, Hnone. done.
Qed.

(** The same over the whole history of the page, from its start. *)
Local Lemma replayed_once_in_history (newAccess : JsVal)
      (evs0 evs' : list Event) (p : nat) :
  truthy newAccess = true → p ∈ map sub_resolve (subscribers s) →
  (run evs0 init).1 = s0 →
  count_occ Nat.eq_dec
    (map fst (replays
       (run (evs0 ++ evs ++ RefreshSettled id (Fulfilled newAccess) :: evs')
            init).2)) p
  = 1.
Proof.
  intros Hv Hp H0.
  apply NoDup_count_occ'.
  - apply NoDup_ListNoDup.
    by destruct (run_replays_once
                   (evs0 ++ evs ++ RefreshSettled id (Fulfilled newAccess)
                         :: evs') init wf_init) as [Hnd _].
  - rewrite run_app, H0. cbn [snd]. rewrite replays_app, map_app.
    apply in_or_app. right.
    apply (count_occ_In Nat.eq_dec).
    rewrite (replayed_once_for_all newAccess evs' p Hv Hp). lia.
Qed.

(** C4. After the refresh call succeeds with a new access token, every
    request queued behind it is put on the wire again exactly once, with
    the same url and the header [Authorization] equal to [Bearer <new
    token>] (the other headers as they were), and its caller's promise
    follows that replay; no replay at all carries another token. Exactly
    once holds for the end of the refresh and for the whole run, from
    the state in which the cycle began and from the start of the page,
    whatever the page and the network do afterwards: the queue is empty
    after the replays, so no later cycle calls the callback again. (A
    replay that fails with 401 in its turn may be queued anew; that is
    another pending request, with a callback and a promise of its
    own.) *)
Theorem replay_with_new_token (newAccess : JsVal) :
  truthy newAccess = true →
  let r := step (RefreshSettled id (Fulfilled newAccess)) s in
  Forall (λ pc, headers pc.2 !! "Authorization"
                = Some ("Bearer " +:+ to_string newAccess)) (replays r.2)
  ∧ subscribers r.1 = []
  ∧ ∀ p u h,
      (p, u, h) ∈ queued_requests (run evs s0).2 →
      count_occ Nat.eq_dec (map fst (replays r.2)) p = 1
      ∧ (∀ evs',
           count_occ Nat.eq_dec
             (map fst
                (replays
                   (run (evs ++ RefreshSettled id (Fulfilled newAccess)
                                 :: evs') s0).2)) p
           = 1)
      ∧ (∀ evs0 evs',
           (run evs0 init).1 = s0 →
           count_occ Nat.eq_dec
             (map fst
                (replays
                   (run (evs0 ++ evs
                              ++ RefreshSettled id (Fulfilled newAccess)
                              :: evs') init).2)) p
           = 1)
      ∧ ∃ c, (p, c) ∈ replays r.2
             ∧ url c = u
             ∧ headers c !! "Authorization"
               = Some ("Bearer " +:+ to_string newAccess)
             ∧ (∀ k, k ≠ "Authorization" →
                     headers c !! k
                     = (h ∪ {["Accept" := "application/json"]}) !! k)
             ∧ promises r.1 !! p = Some (Resolved c).
Proof.
  intros Hv r.
  destruct (success_replays newAccess Hv)
    as (Hrep & Hkeys & Hnd & Hls & Hsubs & _ & _ & _ & Hres).
  fold r in Hrep, Hls, Hres, Hsubs.
  split.
  - apply success_replays_headers; [apply cycle_wf | done | done].
  - split; [exact Hsubs|].
    rewrite Hrep, Hls. intros p u h Hq.
    assert (Hin : (p, u, h) ∈ map sub_key (subscribers s))
      by (rewrite Hkeys; apply elem_of_app; by right).
    apply list_elem_of_fmap in Hin as (cb & Hkey & Hcb).
    unfold sub_key in Hkey. injection Hkey as -> -> ->.
    assert (Hp : sub_resolve cb ∈ map sub_resolve (subscribers s))
      by (apply list_elem_of_fmap; eauto).
    split; [|split; [|split]].
    + rewrite map_map. simpl.
      apply NoDup_count_occ'; [apply NoDup_ListNoDup; exact Hnd|].
      by apply list_elem_of_In.
    + intros evs'. by apply replayed_once_for_all.
    + intros evs0 evs' H0. by apply replayed_once_in_history.
    + destruct (replay_config_spec newAccess (ls s) cb Hv)
        as (H1 & H2 & _ & H4).
      exists (replay_config newAccess
                (tokenStore.set_access newAccess (ls s)) cb).
      repeat split; try done.
      * apply list_elem_of_fmap. eauto.
      * rewrite <- Hls. apply Hres; [done|].
        rewrite <- queued_requests_ids. apply list_elem_of_fmap.
        by exists (sub_resolve cb, url (sub_original cb),
                   headers (sub_original cb)).
Qed.

(** C8. When the refresh succeeds the subscribers are called in the
    order of the queue: first the callbacks that were in [subscribers]
    when the run began, then the requests queued during the run, in the
    order in which they were queued; with an empty queue at the start of
    the cycle, exactly the requests of the cycle in the order of their
    queueing. *)
Theorem notified_in_queue_order (newAccess : JsVal) :
  truthy newAccess = true →
  let r := step (RefreshSettled id (Fulfilled newAccess)) s in
  map fst (replays r.2)
  = map sub_resolve (subscribers s0) ++ queued (run evs s0).2
  ∧ (subscribers s0 = [] →
     map fst (replays r.2) = queued (run evs s0).2).
Proof.
  intros Hv r.
  destruct (success_replays newAccess Hv) as (Hrep & _).
  fold r in Hrep.
  destruct (run_tracks evs s0 (wf_reachable s0 Hs0) Hevs) as (Hq & _).
  fold s in Hq.
  assert (Hall : map fst (replays r.2)
                 = map sub_resolve (subscribers s0) ++ queued (run evs s0).2).
  { rewrite Hrep, map_map. simpl. exact Hq. }
  split; [done|]. intros Hnil. by rewrite Hall, Hnil.
Qed.

(** C9. A refresh call that is fulfilled with a body without [access]
    (or with a falsy one) ends like a failed one: both tokens are
    removed, so the missing token is never stored; nothing is replayed;
    the refresh state is idle; and every request queued behind the call
    is rejected, with the error thrown for the missing token. *)
Theorem missing_access_is_failure (access : JsVal) :
  truthy access = false →
  let r := step (RefreshSettled id (Fulfilled access)) s in
  tokenStore.access (ls r.1) = None
  ∧ tokenStore.refresh (ls r.1) = None
  ∧ r.2 = []
  ∧ isRefreshing r.1 = false
  ∧ ∀ p, p ∈ queued (run evs s0).2 →
         promises r.1 !! p
         = Some (Rejected (PlainError "No access token in refresh response")).
Proof.
  intros Hv r.
  assert (Hr : rejection (Fulfilled access) = Some no_access_error)
    by (simpl; by rewrite Hv).
  destruct (failure_fan_out _ _ Hr) as (H1 & H2 & H3 & _ & _ & H6 & H7).
  by repeat split.
Qed.

End Cycle.

Lemma replay_with_new_token_witness :
  let s0 := (run (login (JStr "A1") (JStr "R1")) init).1 in
  let evs := [ResponseError (unauthorized "/a");
              ResponseError (unauthorized "/b")] in
  let r := step (RefreshSettled 0 (Fulfilled (JStr "A2"))) (run evs s0).1 in
  let later := [ResponseError (unauthorized "/c");
                RefreshSettled 3 (Fulfilled (JStr "A3"))] in
  map (λ pc, (pc.1, headers pc.2 !! "Authorization")) (replays r.2)
  = [(1, Some "Bearer A2"); (2, Some "Bearer A2")]
  ∧ count_occ Nat.eq_dec (map fst (replays r.2)) 2 = 1
  ∧ map fst (replays
               (run (evs ++ RefreshSettled 0 (Fulfilled (JStr "A2")) :: later)
                    s0).2)
    = [1; 2; 4]
  ∧ count_occ Nat.eq_dec
      (map fst (replays
                  (run (evs ++ RefreshSettled 0 (Fulfilled (JStr "A2"))
                            :: later) s0).2)) 2
    = 1
  ∧ ∃ c, (2, c) ∈ replays r.2 ∧ url c = "/b"
         ∧ headers c !! "Authorization" = Some "Bearer A2"
         ∧ promises r.1 !! 2 = Some (Resolved c).
Proof.
  intros s0 evs r later.
  assert (Hs0 : reachable s0)
    by (by exists (login (JStr "A1") (JStr "R1"))).
  assert (Hevs : Forall (λ ev, is_settle ev = false) evs)
    by (by repeat constructor).
  destruct (replay_with_new_token s0 evs 0 Hs0 Hevs eq_refl (JStr "A2")
              eq_refl) as (_ & _ & H).
  assert (Hq : (2, "/b", (∅ : gmap string string))
               ∈ queued_requests (run evs s0).2).
  { vm_compute. apply list_elem_of_In. right. by left. }
  destruct (H 2 "/b" ∅ Hq) as (Hc & Hall & _ & c & H1 & H2 & H3 & _ & H5).
  split; [vm_compute; reflexivity|]. split; [exact Hc|].
  split; [vm_compute; reflexivity|]. split; [exact (Hall later)|].
  exists c. by repeat split.
Defined.

Lemma notified_in_queue_order_witness :
  let s0 := (run (login (JStr "A1") (JStr "R1")) init).1 in
  let evs := [ResponseError (unauthorized "/a");
              Call {| url := "/c"; headers := ∅; __isRetryRequest := false |};
              ResponseError (unauthorized "/b");
              ResponseError (unauthorized "/c")] in
  let r := step (RefreshSettled 0 (Fulfilled (JStr "A2"))) (run evs s0).1 in
  queued (run evs s0).2 = [1; 2; 3]
  ∧ map fst (replays r.2) = [1; 2; 3]
  ∧ map (λ pc, url pc.2) (replays r.2) = ["/a"; "/b"; "/c"].
Proof.
  intros s0 evs r.
  assert (Hs0 : reachable s0)
    by (by exists (login (JStr "A1") (JStr "R1"))).
  assert (Hevs : Forall (λ ev, is_settle ev = false) evs)
    by (by repeat constructor).
  destruct (notified_in_queue_order s0 evs 0 Hs0 Hevs eq_refl (JStr "A2")
              eq_refl) as [_ H].
  split; [vm_compute; reflexivity|].
  split; [|vm_compute; reflexivity].
  etransitivity; [exact (H eq_refl)|]. vm_compute. reflexivity.
Defined.

Lemma missing_access_is_failure_witness :
  let s0 := (run (login (JStr "A1") (JStr "R1")) init).1 in
  let evs := [ResponseError (unauthorized "/a");
              ResponseError (unauthorized "/b")] in
  let r := step (RefreshSettled 0 (Fulfilled JUndefined)) (run evs s0).1 in
  queued (run evs s0).2 = [1; 2]
  ∧ ls r.1 = ∅ ∧ r.2 = []
  ∧ promises r.1 !! 1
    = Some (Rejected (PlainError "No access token in refresh response"))
  ∧ promises r.1 !! 2
    = Some (Rejected (PlainError "No access token in refresh response")).
Proof.
  intros s0 evs r.
  assert (Hs0 : reachable s0)
    by (by exists (login (JStr "A1") (JStr "R1"))).
  assert (Hevs : Forall (λ ev, is_settle ev = false) evs)
    by (by repeat constructor).
  destruct (missing_access_is_failure s0 evs 0 Hs0 Hevs eq_refl JUndefined
              eq_refl) as (_ & _ & H3 & _ & H5).
  assert (Hq : queued (run evs s0).2 = [1; 2]) by (vm_compute; reflexivity).
  split; [exact Hq|]. split; [vm_compute; reflexivity|].
  split; [exact H3|].
  split; apply H5; rewrite Hq; set_solver.
Defined.

(** ** What a successful refresh changes *)

(** C6. A successful refresh writes the access token and nothing else
    in the storage: from [{access: A1, refresh: R1}] a refresh response
    [{access: A2}] leads to [{access: A2, refresh: R1}], and every
    request replayed carries [Authorization: Bearer A2]. *)
Theorem refresh_writes_access_only (s : State) (id : nat) (A2 : string) :
  reachable s → refreshPromise s = Some id → A2 ≠ "" →
  let r := step (RefreshSettled id (Fulfilled (JStr A2))) s in
  ls r.1 = <["access" := A2]> (ls s)
  ∧ tokenStore.access (ls r.1) = Some A2
  ∧ tokenStore.refresh (ls r.1) = tokenStore.refresh (ls s)
  ∧ (∀ A1 R1, tokenStore.access (ls s) = Some A1 →
              tokenStore.refresh (ls s) = Some R1 →
              tokenStore.access (ls r.1) = Some A2
              ∧ tokenStore.refresh (ls r.1) = Some R1)
  ∧ map fst (replays r.2) = map sub_resolve (subscribers s)
  ∧ Forall (λ pc, headers pc.2 !! "Authorization" = Some ("Bearer " +:+ A2))
           (replays r.2).
Proof.
  intros Hs Hid Hne r.
  pose proof (truthy_JStr A2 Hne) as Hv.
  destruct (success_replays s [] id Hs (Forall_nil_2 _) Hid (JStr A2) Hv)
    as (Hrep & _ & _ & Hls & _).
  pose proof (success_replays_headers s id (JStr A2) (wf_reachable s Hs)
                Hid Hv) as Hall.
  cbn [run fst] in Hrep, Hls. fold r in Hrep, Hls, Hall.
  unfold tokenStore.set_access in Hls. rewrite Hv in Hls.
  assert (Ha : tokenStore.access (ls r.1) = Some A2)
    by (rewrite Hls; apply lookup_insert_eq).
  assert (Hr : tokenStore.refresh (ls r.1) = tokenStore.refresh (ls s))
    by (rewrite Hls; by apply lookup_insert_ne).
  split; [exact Hls|]. split; [exact Ha|]. split; [exact Hr|].
  split; [intros A1 R1 _ HR; by rewrite Hr|].
  split; [|exact Hall].
  rewrite Hrep, map_map. done.
Qed.

Lemma refresh_writes_access_only_witness :
  let evs := login (JStr "A1") (JStr "R1")
             ++ [ResponseError (unauthorized "/a");
                 ResponseError (unauthorized "/b");
                 ResponseError (unauthorized "/c")] in
  let s := (run evs init).1 in
  let r := step (RefreshSettled 0 (Fulfilled (JStr "A2"))) s in
  posts (run evs init).2 = [(0, "R1")]
  ∧ ls s = {["access" := "A1"; "refresh" := "R1"]}
  ∧ ls r.1 = {["access" := "A2"; "refresh" := "R1"]}
  ∧ tokenStore.access (ls r.1) = Some "A2"
  ∧ tokenStore.refresh (ls r.1) = Some "R1"
  ∧ map fst (replays r.2) = [1; 2; 3]
  ∧ Forall (λ pc, headers pc.2 !! "Authorization" = Some "Bearer A2")
           (replays r.2).
Proof.
  intros evs s r.
  assert (Hs : reachable s) by (by exists evs).
  assert (Hne : "A2" ≠ "") by discriminate.
  destruct (refresh_writes_access_only s 0 "A2" Hs eq_refl Hne)
    as (H1 & _ & _ & H4 & H5 & H6).
  destruct (H4 "A1" "R1" eq_refl eq_refl) as [Ha Hr].
  split; [vm_compute; reflexivity|].
  split; [vm_compute; reflexivity|].
  split; [etransitivity; [exact H1|]; vm_compute; reflexivity|].
  split; [exact Ha|]. split; [exact Hr|].
  split; [etransitivity; [exact H5|]; vm_compute; reflexivity|].
  exact H6.
Defined.

(** * Further properties of the pipeline *)

(** ** What the pipeline writes *)

Lemma ls_response_error (error : JsError) (s : State) :
  ls (response_error error s).1.1 = ls s
  ∨ ls (response_error error s).1.1 = tokenStore.clear (ls s).
Proof.
  unfold response_error, queue_request, start_refresh, catch_reject.
  destruct (_ && _); [|by left].
  destruct (negb (truthy _)); [by right|].
  destruct (negb (isRefreshing s)); simpl; left.
  - reflexivity.
  - by destruct (refreshPromise s).
Qed.

Lemma ls_refresh_settled (id : nat) (r : PostResult) (s : State) :
  ls (refresh_settled id r s).1 = ls s
  ∨ ls (refresh_settled id r s).1 = tokenStore.clear (ls s)
  ∨ ∃ v, r = Fulfilled v ∧ truthy v = true
         ∧ ls (refresh_settled id r s).1 = tokenStore.set_access v (ls s).
Proof.
  unfold refresh_settled.
  destruct (inflight s !! id) as [l|]; [|by left].
  destruct r as [v|e]; simpl.
  - destruct (truthy v) eqn:Hv; simpl.
    + rewrite onRefreshed_spec. simpl. right. right. by exists v.
    + right. by left.
  - right. by left.
Qed.

Lemma clear_lookup_ne (m : gmap string string) (k : string) :
  k ≠ "access" → k ≠ "refresh" → tokenStore.clear m !! k = m !! k.
Proof.
  intros Ha Hr. rewrite clear_spec.
  by rewrite lookup_delete_ne, lookup_delete_ne.
Qed.

Lemma set_access_lookup_ne (v : JsVal) (m : gmap string string) (k : string) :
  k ≠ "access" → tokenStore.set_access v m !! k = m !! k.
Proof.
  intros Ha. unfold tokenStore.set_access, localStorage.setItem,
    localStorage.removeItem.
  destruct (truthy v); by simplify_map_eq.
Qed.

(** X1. Whatever it handles (a call of [api], a failed response, the end
    of a refresh call), the pipeline leaves every key of [localStorage]
    other than [access] and [refresh] as it was, never writes a refresh
    token (it keeps the stored one or removes it), and changes the
    access token only by removing it or, at the end of a refresh call
    fulfilled with a truthy [access], by storing that value. *)
Theorem pipeline_storage_frame (ev : Event) (s : State) :
  pipeline_event ev = true →
  let m' := ls (step ev s).1 in
  (∀ k, k ≠ "access" → k ≠ "refresh" → m' !! k = ls s !! k)
  ∧ (tokenStore.refresh m' = tokenStore.refresh (ls s)
     ∨ tokenStore.refresh m' = None)
  ∧ (tokenStore.access m' = tokenStore.access (ls s)
     ∨ tokenStore.access m' = None
     ∨ ∃ id v, ev = RefreshSettled id (Fulfilled v) ∧ truthy v = true
               ∧ tokenStore.access m' = Some (to_string v)).
Proof.
  intros Hev m'. subst m'.
  destruct ev as [c|error|id r|k v|k]; try done.
  - simpl. repeat split; auto.
  - rewrite step_response_error. simpl.
    destruct (ls_response_error error s) as [->| ->].
    + repeat split; auto.
    + rewrite access_clear, refresh_clear.
      split; [intros k; apply clear_lookup_ne|]. auto.
  - rewrite step_refresh_settled. simpl.
    destruct (ls_refresh_settled id r s) as [->|[->|(v & -> & Hv & ->)]].
    + repeat split; auto.
    + rewrite access_clear, refresh_clear.
      split; [intros k; apply clear_lookup_ne|]. auto.
    + rewrite access_set_access, refresh_set_access, Hv.
      split; [intros k Hk _; by apply set_access_lookup_ne|].
      split; [by left|]. right. right. by exists id, v.
Qed.

Lemma pipeline_storage_frame_witness :
  let s := (run (login (JStr "A1") (JStr "R1")
                 ++ [SetItem "cart_id" (JStr "42");
                     ResponseError (unauthorized "/a")]) init).1 in
  let m' := ls (step (RefreshSettled 0 (Failed (PlainError "offline"))) s).1 in
  m' !! "cart_id" = Some "42" ∧ tokenStore.refresh m' = None.
Proof.
  intros s m'.
  destruct (pipeline_storage_frame
              (RefreshSettled 0 (Failed (PlainError "offline"))) s eq_refl)
    as (Hk & _ & _).
  split; [|vm_compute; reflexivity].
  etransitivity; [apply Hk; discriminate|]. vm_compute. reflexivity.
Defined.

(** ** When a stored token is empty *)

Lemma tokens_nonempty_clear (m : gmap string string) :
  tokens_nonempty m → tokens_nonempty (tokenStore.clear m).
Proof.
  intros Hm k t Hk. rewrite clear_spec. intros Ht.
  apply lookup_delete_Some in Ht as [_ Ht].
  apply lookup_delete_Some in Ht as [_ Ht]. by apply (Hm k).
Qed.

Lemma tokens_nonempty_set_access (v : JsVal) (m : gmap string string) :
  to_string v ≠ "" →
  tokens_nonempty m → tokens_nonempty (tokenStore.set_access v m).
Proof.
  intros Hv Hm k t Hk.
  unfold tokenStore.set_access, localStorage.setItem, localStorage.removeItem.
  destruct (truthy v).
  - destruct (decide (k = "access")) as [->|Hne].
    + rewrite lookup_insert_eq. by intros [= <-].
    + rewrite lookup_insert_ne by done. by apply Hm.
  - intros Ht. apply lookup_delete_Some in Ht as [_ Ht]. by apply (Hm k).
Qed.

Lemma tokens_nonempty_step (ev : Event) (s : State) :
  nonempty_write ev = true →
  tokens_nonempty (ls s) → tokens_nonempty (ls (step ev s).1).
Proof.
  intros Hev Hm. destruct ev as [c|error|id r|k v|k].
  - done.
  - rewrite step_response_error. simpl.
    destruct (ls_response_error error s) as [->| ->];
      [done | by apply tokens_nonempty_clear].
  - rewrite step_refresh_settled. simpl.
    destruct (ls_refresh_settled id r s) as [->|[->|(v & -> & Hv & ->)]];
      [done | by apply tokens_nonempty_clear |].
    apply tokens_nonempty_set_access; [|done].
    simpl in Hev. rewrite Hv in Hev. simpl in Hev.
    by destruct (String.eqb_spec (to_string v) "").
  - simpl. unfold localStorage.setItem. intros k' t Hk'.
    destruct (decide (k = k')) as [->|Hne].
    + rewrite lookup_insert_eq. intros [= <-].
      simpl in Hev. rewrite bool_decide_eq_true_2 in Hev by done.
      by destruct (String.eqb_spec (to_string v) "").
    + rewrite lookup_insert_ne by done. by apply Hm.
  - simpl. unfold localStorage.removeItem. intros k' t Hk' Ht.
    apply lookup_delete_Some in Ht as [_ Ht]. by apply (Hm k').
Qed.

(** X2. A token is stored as the empty string only by a write whose
    value turns into the empty string. As long as no write of the page
    under [access] or [refresh] and no fulfilled refresh call carries
    such a value, no stored token is empty, whatever the pipeline does
    in between, and the request interceptor attaches [Bearer <token>]
    exactly when the store holds an access token. The tests [if (v)] of
    the setters and [!newAccess] of the refresh handler keep out the
    empty string, but not an object that turns into it: a refresh call
    fulfilled with an empty array as [access] counts as a success, the
    store then holds the empty string as access token, the queued
    requests are replayed with the header [Bearer ] and later requests
    go out with no header added. *)
Theorem empty_token_needs_empty_write :
  (∀ evs s,
      tokens_nonempty (ls s) → Forall (λ ev, nonempty_write ev = true) evs →
      let m := ls (run evs s).1 in
      tokens_nonempty m
      ∧ ∀ config,
          match tokenStore.access m with
          | Some t =>
              headers (request_interceptor m config)
              = <["Authorization" := "Bearer " +:+ t]> (headers config)
          | None => request_interceptor m config = config
          end)
  ∧ (∀ id k t, truthy (JStr t) = true →
               nonempty_write (SetItem k (JStr t)) = true
               ∧ nonempty_write (RefreshSettled id (Fulfilled (JStr t)))
                 = true)
  ∧ (∀ s id, reachable s → refreshPromise s = Some id →
             let r := step (RefreshSettled id (Fulfilled (JObj ""))) s in
             tokenStore.access (ls r.1) = Some ""
             ∧ isRefreshing r.1 = false
             ∧ map fst (replays r.2) = map sub_resolve (subscribers s)
             ∧ Forall (λ pc, headers pc.2 !! "Authorization" = Some "Bearer ")
                      (replays r.2)
             ∧ ∀ config, request_interceptor (ls r.1) config = config).
Proof.
  split; [|split].
  - intros evs s Hm Hevs m.
    assert (Hne : tokens_nonempty m).
    { subst m. revert s Hm.
      induction Hevs as [|ev evs Hev Hevs IH]; intros s Hm; [done|].
      rewrite run_cons. simpl. apply IH. by apply tokens_nonempty_step. }
    split; [done|]. intros config.
    destruct (tokenStore.access m) as [t|] eqn:Ht.
    + rewrite (request_interceptor_token m config t); [done | done |].
      apply (Hne "access"); [by left | exact Ht].
    + apply request_interceptor_none. by rewrite Ht.
  - intros id k t Ht. simpl in Ht |- *. rewrite Ht.
    split; [by destruct (bool_decide _)|done].
  - intros s id Hs Hid r.
    pose proof (wf_reachable s Hs) as Hwf.
    pose proof (success_replays_headers s id (JObj "") Hwf Hid eq_refl)
      as Hall.
    fold r in Hall. subst r. rewrite step_refresh_settled in Hall |- *.
    rewrite refresh_settled_success in Hall |- * by done.
    simpl in Hall |- *. rewrite replays_of_subscribers, map_map.
    split; [apply lookup_insert_eq|]. split; [done|]. split; [done|].
    split; [by rewrite replays_of_subscribers in Hall|].
    intros config. apply request_interceptor_none.
    by rewrite access_set_access.
Qed.

Lemma empty_token_needs_empty_write_witness :
  let evs := login (JStr "A1") (JStr "R1")
             ++ [ResponseError (unauthorized "/a");
                 RefreshSettled 0 (Fulfilled (JStr "A2"))] in
  let evs' := login (JStr "A1") (JStr "R1")
              ++ [ResponseError (unauthorized "/a")] in
  let r := step (RefreshSettled 0 (Fulfilled (JObj ""))) (run evs' init).1 in
  (tokens_nonempty (ls (run evs init).1)
   ∧ ls (run evs init).1 = {["access" := "A2"; "refresh" := "R1"]})
  ∧ (ls r.1 = {["access" := ""; "refresh" := "R1"]}
     ∧ map (λ pc, (pc.1, headers pc.2 !! "Authorization")) (replays r.2)
       = [(1, Some "Bearer ")]
     ∧ request_interceptor (ls r.1) empty_config = empty_config).
Proof.
  intros evs evs' r.
  destruct empty_token_needs_empty_write as (Hrun & _ & Hobj).
  assert (Hinit : tokens_nonempty (ls init))
    by (intros k t _ Ht; simpl in Ht; by rewrite lookup_empty in Ht).
  assert (Hevs : Forall (λ ev, nonempty_write ev = true) evs)
    by (by repeat constructor).
  destruct (Hrun evs init Hinit Hevs) as [H _].
  split; [split; [exact H|vm_compute; reflexivity]|].
  assert (Hs : reachable (run evs' init).1) by (by exists evs').
  destruct (Hobj (run evs' init).1 0 Hs eq_refl) as (_ & _ & _ & _ & Hreq).
  split; [vm_compute; reflexivity|]. split; [vm_compute; reflexivity|].
  exact (Hreq empty_config).
Defined.

(** ** What a refresh call carries *)

Lemma posts_map_Did_nil (eff : list Effect) :
  (∀ id r, PostRefresh id r ∉ eff) → posts (map Did eff) = [].
Proof.
  induction eff as [|e eff IH]; intros H; [done|].
  simpl. rewrite IH.
  - destruct e as [c|p c|id r]; try done.
    exfalso. apply (H id r). by left.
  - intros id r Hin. apply (H id r). by right.
Qed.

Lemma posts_refresh_settled (id : nat) (r : PostResult) (s : State) :
  posts (map Did (refresh_settled id r s).2) = [].
Proof.
  apply posts_map_Did_nil. intros id' r'.
  unfold refresh_settled.
  destruct (inflight s !! id); [|by apply not_elem_of_nil].
  destruct r as [v|e]; simpl; [|by apply not_elem_of_nil].
  destruct (truthy v); simpl; [|by apply not_elem_of_nil].
  rewrite onRefreshed_spec. simpl.
  intros Hin. apply list_elem_of_fmap in Hin as (cb & Heq & _). done.
Qed.

(** X3. A refresh call is issued only by the error interceptor, on a 401
    of a request not marked as retried while no refresh is running, and
    it posts the refresh token the store holds at that moment, which is
    not empty; so no run ever posts an empty or missing refresh token. *)
Theorem refresh_call_payload :
  (∀ ev s id R,
      (id, R) ∈ posts (step ev s).2 →
      tokenStore.refresh (ls s) = Some R ∧ R ≠ ""
      ∧ isRefreshing s = false
      ∧ ∃ error, ev = ResponseError error ∧ recoverable error = true)
  ∧ ∀ evs s, Forall (λ p, p.2 ≠ "") (posts (run evs s).2).
Proof.
  assert (Hstep : ∀ ev s id R,
             (id, R) ∈ posts (step ev s).2 →
             tokenStore.refresh (ls s) = Some R ∧ R ≠ ""
             ∧ isRefreshing s = false
             ∧ ∃ error, ev = ResponseError error ∧ recoverable error = true).
  { intros ev s id R Hin. destruct ev as [c|error|id' r|k v|k];
      try (simpl in Hin; by apply elem_of_nil in Hin).
    - rewrite step_response_error in Hin. simpl in Hin.
      rewrite posts_app in Hin. simpl in Hin. rewrite app_nil_r in Hin.
      destruct (posts_response_error error s)
        as [Hnil|(R' & HR & Hne & Hb & Hrec & Heff)].
      + rewrite Hnil in Hin. by apply elem_of_nil in Hin.
      + rewrite Heff in Hin. simpl in Hin.
        apply list_elem_of_singleton in Hin. injection Hin as -> ->.
        repeat split; try done. by exists error.
    - rewrite step_refresh_settled in Hin. simpl in Hin.
      rewrite posts_refresh_settled in Hin. by apply elem_of_nil in Hin. }
  split; [exact Hstep|].
  intros evs. induction evs as [|ev evs IH]; intros s; [constructor|].
  rewrite run_cons. simpl. rewrite posts_app. apply Forall_app. split.
  - apply Forall_forall. intros [id R] Hin.
    by destruct (Hstep ev s id R Hin) as (_ & Hne & _).
  - apply IH.
Qed.

Lemma refresh_call_payload_witness :
  let s := (run (login (JStr "A1") (JStr "R1")) init).1 in
  posts (step (ResponseError (unauthorized "/a")) s).2 = [(0, "R1")]
  ∧ tokenStore.refresh (ls s) = Some "R1" ∧ "R1" ≠ "".
Proof.
  intros s.
  destruct refresh_call_payload as [H _].
  assert (Hin : (0, "R1") ∈ posts (step (ResponseError (unauthorized "/a")) s).2)
    by (vm_compute; by left).
  destruct (H _ _ _ _ Hin) as (H1 & H2 & _).
  split; [vm_compute; reflexivity|]. by split.
Defined.

(** ** A logout while a refresh is running *)

(** X4. A logout that happens while a refresh call is on the wire does
    not stop it: when the call is fulfilled with a token, that token is
    written to the store the logout had emptied, which then holds an
    access token and no refresh token, and requests of [api] carry the
    new token again (unless the value written turns into the empty
    string, as an empty array does: the request interceptor then adds
    nothing). *)
Theorem logout_during_refresh_is_undone (s : State) (id : nat)
        (newAccess : JsVal) :
  reachable s → refreshPromise s = Some id → truthy newAccess = true →
  let s1 := (run logout s).1 in
  let r := step (RefreshSettled id (Fulfilled newAccess)) s1 in
  ls s1 = tokenStore.clear (ls s)
  ∧ tokenStore.access (ls s1) = None
  ∧ tokenStore.access (ls r.1) = Some (to_string newAccess)
  ∧ tokenStore.refresh (ls r.1) = None
  ∧ ∀ config, headers (api_request (ls r.1) config) !! "Authorization"
              = if String.eqb (to_string newAccess) ""
                then headers config !! "Authorization"
                else Some ("Bearer " +:+ to_string newAccess).
Proof.
  intros Hs Hid Hv s1 r.
  assert (Hs1 : s1 = set_ls (tokenStore.clear (ls s)) s) by reflexivity.
  assert (Hwf1 : wf s1)
    by (rewrite Hs1; apply wf_set_ls; by apply wf_reachable).
  assert (Hid1 : refreshPromise s1 = Some id) by (by rewrite Hs1).
  assert (Hls : ls r.1 = tokenStore.set_access newAccess (ls s1)).
  { subst r. rewrite step_refresh_settled.
    by rewrite refresh_settled_success. }
  assert (Hacc : tokenStore.access (ls r.1) = Some (to_string newAccess))
    by (by rewrite Hls, access_set_access, Hv).
  split; [by rewrite Hs1|]. split; [rewrite Hs1; apply access_clear|].
  split; [exact Hacc|].
  split; [rewrite Hls, refresh_set_access, Hs1; apply refresh_clear|].
  intros config.
  destruct (String.eqb_spec (to_string newAccess) "") as [He|Hne].
  - unfold api_request. rewrite request_interceptor_none
      by (rewrite Hacc, He; reflexivity).
    apply with_defaults_Authorization.
  - by destruct (api_request_token (ls r.1) config (to_string newAccess) Hacc
                   Hne) as [H _].
Qed.

Lemma logout_during_refresh_is_undone_witness :
  let s := (run (login (JStr "A1") (JStr "R1")
                 ++ [ResponseError (unauthorized "/a")]) init).1 in
  let r := step (RefreshSettled 0 (Fulfilled (JStr "A2")))
                (run logout s).1 in
  ls (run logout s).1 = ∅ ∧ ls r.1 = {["access" := "A2"]}.
Proof.
  intros s r.
  assert (Hs : reachable s)
    by (by exists (login (JStr "A1") (JStr "R1")
                   ++ [ResponseError (unauthorized "/a")])).
  destruct (logout_during_refresh_is_undone s 0 (JStr "A2") Hs eq_refl eq_refl)
    as (H1 & _).
  split; [etransitivity; [exact H1|]|]; vm_compute; reflexivity.
Defined.

(** ** What a caller still waits for *)

Lemma settle_not_pending (p : nat) (o : PromiseState)
      (ps : gmap nat PromiseState) :
  o ≠ Pending → settle p o ps !! p ≠ Some Pending.
Proof.
  intros Ho. unfold settle. destruct (ps !! p) as [[| |]|] eqn:Hp.
  - rewrite lookup_insert_eq. congruence.
  - rewrite Hp. congruence.
  - rewrite Hp. congruence.
  - rewrite Hp. congruence.
Qed.

Lemma settle_keeps_not_pending (p q : nat) (o : PromiseState)
      (ps : gmap nat PromiseState) :
  o ≠ Pending → ps !! q ≠ Some Pending → settle p o ps !! q ≠ Some Pending.
Proof.
  intros Ho Hq. destruct (decide (p = q)) as [->|Hne].
  - by apply settle_not_pending.
  - by rewrite settle_other.
Qed.

Lemma resolve_all_keeps_not_pending (v : JsVal) (m : gmap string string)
      (cbs : list Subscriber) (q : nat) (ps : gmap nat PromiseState) :
  ps !! q ≠ Some Pending → resolve_all v m cbs ps !! q ≠ Some Pending.
Proof.
  unfold resolve_all. revert ps.
  induction cbs as [|cb cbs IH]; intros ps Hq; simpl; [done|].
  apply IH. by apply settle_keeps_not_pending.
Qed.

Lemma resolve_all_not_pending (v : JsVal) (m : gmap string string)
      (cbs : list Subscriber) (q : nat) (ps : gmap nat PromiseState) :
  q ∈ map sub_resolve cbs → resolve_all v m cbs ps !! q ≠ Some Pending.
Proof.
  revert ps. induction cbs as [|cb cbs IH]; intros ps Hin; simpl in Hin.
  - by apply elem_of_nil in Hin.
  - apply elem_of_cons in Hin as [->|Hin].
    + apply (resolve_all_keeps_not_pending v m cbs).
      by apply settle_not_pending.
    + by apply (IH (settle _ _ ps)).
Qed.

Lemma reject_all_keeps_not_pending (e : JsError) (l : list nat) (q : nat)
      (ps : gmap nat PromiseState) :
  ps !! q ≠ Some Pending →
  foldl (λ ps p, settle p (Rejected e) ps) ps l !! q ≠ Some Pending.
Proof.
  revert ps. induction l as [|p l IH]; intros ps Hq; simpl; [done|].
  apply IH. by apply settle_keeps_not_pending.
Qed.

Lemma reject_all_not_pending (e : JsError) (l : list nat) (q : nat)
      (ps : gmap nat PromiseState) :
  q ∈ l → foldl (λ ps p, settle p (Rejected e) ps) ps l !! q ≠ Some Pending.
Proof.
  revert ps. induction l as [|p l IH]; intros ps Hin; simpl.
  - by apply elem_of_nil in Hin.
  - apply elem_of_cons in Hin as [->|Hin].
    + apply reject_all_keeps_not_pending. by apply settle_not_pending.
    + by apply IH.
Qed.

Lemma pending_tracked_queued_state (original : Config) (id : nat)
      (l : list nat) (s : State) :
  (∀ p, promises s !! p = Some Pending → p ∈ l) →
  (∀ p, p ∈ l → p ∈ map sub_resolve (subscribers s)) →
  pending_tracked (queued_state original id l s).
Proof.
  intros Hp Hq. split; unfold cycle_rejects; simpl;
    rewrite lookup_singleton_eq; simpl; intros p.
  - destruct (decide (p = next_id s)) as [->|Hne].
    + intros _. apply elem_of_app. right. by apply list_elem_of_singleton.
    + rewrite lookup_insert_ne by done. intros H.
      apply elem_of_app. left. by apply Hp.
  - rewrite map_app. simpl. rewrite !elem_of_app.
    intros [H|H]; [left; by apply Hq | by right].
Qed.

Lemma pending_tracked_step (ev : Event) (s : State) :
  wf s → pending_tracked s → pending_tracked (step ev s).1.
Proof.
  intros Hwf [Hp Hq]. destruct ev as [c|error|id r|k v|k]; try done.
  - rewrite step_response_error. simpl.
    response_error_cases error s Hwf; try done.
    + by apply pending_tracked_queued_state.
    + destruct (wf_idle s Hwf Hb) as [Hnone _].
      apply pending_tracked_queued_state; simpl.
      * intros p Hpend. apply Hp in Hpend.
        unfold cycle_rejects in Hpend. by rewrite Hnone in Hpend.
      * intros p Hin. by apply elem_of_nil in Hin.
  - rewrite step_refresh_settled. simpl.
    destruct (inflight s !! id) as [l|] eqn:Hin;
      [|by rewrite refresh_settled_none].
    destruct (wf_inflight_lookup s id l Hwf Hin) as (_ & Hid & _ & _).
    assert (Hdone : ∀ s', refreshPromise s' = None →
              (∀ p, promises s' !! p ≠ Some Pending) → pending_tracked s').
    { intros s' Hnone Hall. split; unfold cycle_rejects; rewrite Hnone.
      - intros p Hpend. by apply Hall in Hpend.
      - intros p Hnil. by apply elem_of_nil in Hnil. }
    destruct (rejection r) as [e|] eqn:Hr.
    + rewrite (refresh_settled_failure id r e) by done.
      apply Hdone; [done|]. simpl. intros p.
      destruct (promises s !! p) as [[| |]|] eqn:Hpend;
        [apply reject_all_not_pending; by apply Hp
        |apply reject_all_keeps_not_pending; by rewrite Hpend ..].
    + destruct r as [v|e]; [|done]. simpl in Hr.
      destruct (truthy v) eqn:Hv; [|done].
      rewrite refresh_settled_success by done.
      apply Hdone; [done|]. simpl. intros p.
      destruct (promises s !! p) as [[| |]|] eqn:Hpend;
        [apply resolve_all_not_pending; by apply Hq, Hp
        |apply resolve_all_keeps_not_pending; by rewrite Hpend ..].
Qed.

Lemma pending_tracked_reachable (s : State) : reachable s → pending_tracked s.
Proof.
  intros [evs <-].
  assert (H : ∀ s0, wf s0 → pending_tracked s0 →
                    pending_tracked (run evs s0).1).
  { induction evs as [|ev evs IH]; intros s0 Hwf Hpt; [done|].
    rewrite run_cons. simpl.
    apply IH; [by apply wf_step | by apply pending_tracked_step]. }
  apply H; [apply wf_init|].
  split; intros p; simpl; [by rewrite lookup_empty | done].
Qed.

(** A promise is resolved only by the callback of its request, with
    the replay that the callback puts on the wire. *)
Lemma settle_resolved (p q : nat) (o : PromiseState)
      (ps : gmap nat PromiseState) (c : Config) :
  settle p o ps !! q = Some (Resolved c) →
  ps !! q = Some (Resolved c) ∨ (p = q ∧ o = Resolved c).
Proof.
  unfold settle. destruct (ps !! p) as [[| |]|] eqn:Hp; auto.
  destruct (decide (p = q)) as [->|Hne].
  - rewrite lookup_insert_eq. intros [= ->]. by right.
  - rewrite lookup_insert_ne by done. by left.
Qed.

Lemma resolve_all_resolved (v : JsVal) (m : gmap string string)
      (cbs : list Subscriber) (q : nat) (ps : gmap nat PromiseState)
      (c : Config) :
  resolve_all v m cbs ps !! q = Some (Resolved c) →
  ps !! q = Some (Resolved c)
  ∨ ∃ cb, cb ∈ cbs ∧ sub_resolve cb = q ∧ c = replay_config v m cb.
Proof.
  unfold resolve_all. revert ps.
  induction cbs as [|cb cbs IH]; intros ps Hq; simpl in Hq; [by left|].
  destruct (IH _ Hq) as [Hs|(cb' & Hin & Hres & Hc)].
  - apply settle_resolved in Hs as [Hs|[Hres [= Hc]]]; [by left|].
    right. exists cb. split; [by left|]. by split.
  - right. exists cb'. split; [by right|]. by split.
Qed.

Lemma reject_all_resolved (e : JsError) (l : list nat) (q : nat)
      (ps : gmap nat PromiseState) (c : Config) :
  foldl (λ ps p, settle p (Rejected e) ps) ps l !! q = Some (Resolved c) →
  ps !! q = Some (Resolved c).
Proof.
  revert ps. induction l as [|p l IH]; intros ps Hq; simpl in Hq; [done|].
  apply IH in Hq. by apply settle_resolved in Hq as [Hq|[_ [=]]].
Qed.

Lemma step_resolved (ev : Event) (s : State) (p : nat) (c : Config) :
  wf s → promises (step ev s).1 !! p = Some (Resolved c) →
  promises s !! p = Some (Resolved c) ∨ (p, c) ∈ replays (step ev s).2.
Proof.
  intros Hwf. destruct ev as [c0|error|id r|k v|k]; try by left.
  - rewrite step_response_error. simpl.
    response_error_cases error s Hwf; simpl; try by left.
    + destruct (decide (p = next_id s)) as [->|Hne].
      * by rewrite lookup_insert_eq.
      * rewrite lookup_insert_ne by done. by left.
    + destruct (decide (p = S (next_id s))) as [->|Hne].
      * by rewrite lookup_insert_eq.
      * rewrite lookup_insert_ne by done. by left.
  - rewrite step_refresh_settled. simpl.
    destruct (inflight s !! id) as [l|] eqn:Hin;
      [|rewrite refresh_settled_none by done; by left].
    destruct (wf_inflight_lookup s id l Hwf Hin) as (_ & Hid & _ & _).
    destruct (rejection r) as [e|] eqn:Hr.
    + rewrite (refresh_settled_failure id r e) by done. simpl.
      intros Hp. left. by apply reject_all_resolved in Hp.
    + destruct r as [v|e]; [|done]. simpl in Hr.
      destruct (truthy v) eqn:Hv; [|done].
      rewrite refresh_settled_success by done. simpl.
      intros Hp. apply resolve_all_resolved in Hp
        as [Hp|(cb & Hcb & <- & ->)]; [by left|].
      right. rewrite replays_of_subscribers.
      apply list_elem_of_fmap. by exists cb.
Qed.

Lemma run_resolved (evs : list Event) (s : State) (p : nat) (c : Config) :
  wf s → promises (run evs s).1 !! p = Some (Resolved c) →
  promises s !! p = Some (Resolved c) ∨ (p, c) ∈ replays (run evs s).2.
Proof.
  revert s. induction evs as [|ev evs IH]; intros s Hwf Hp; [by left|].
  rewrite run_cons in Hp |- *. cbn [fst snd] in Hp |- *.
  rewrite replays_app, elem_of_app.
  destruct (IH _ (wf_step ev s Hwf) Hp) as [Hs|Hin]; [|by right; right].
  destruct (step_resolved ev s p c Hwf Hs) as [H0|Hin];
    [by left | by right; left].
Qed.

(** X5. At every moment of a run, the promises on which the pipeline
    has called neither [resolve] nor [reject] are exactly those of the
    requests queued behind the running refresh, each with its callback
    in the queue. [resolve] is called only with a replay that was put on
    the wire; the promise then follows that replay, and is fulfilled or
    rejected with it and not by the pipeline. So while no refresh is
    running, every promise the error interceptor has handed out is
    either rejected or follows its replay: what its caller may still
    wait for is the replayed request, not a call of the pipeline. *)
Theorem pending_promises_are_queued (evs : list Event) :
  let s := (run evs init).1 in
  let log := (run evs init).2 in
  (∀ p, promises s !! p = Some Pending ↔ p ∈ cycle_rejects s)
  ∧ (∀ p, p ∈ cycle_rejects s → p ∈ map sub_resolve (subscribers s))
  ∧ (∀ p c, promises s !! p = Some (Resolved c) → (p, c) ∈ replays log)
  ∧ (isRefreshing s = false →
     ∀ p st, promises s !! p = Some st →
             (∃ e, st = Rejected e)
             ∨ (∃ c, st = Resolved c ∧ (p, c) ∈ replays log)).
Proof.
  intros s log.
  assert (Hs : reachable s) by (by exists evs).
  pose proof (wf_reachable s Hs) as Hwf.
  destruct (pending_tracked_reachable s Hs) as [Hp Hq].
  assert (Hres : ∀ p c, promises s !! p = Some (Resolved c) →
                        (p, c) ∈ replays log).
  { intros p c Hpc.
    destruct (run_resolved evs init p c wf_init Hpc) as [H0|Hin]; [|done].
    simpl in H0. by rewrite lookup_empty in H0. }
  split; [|split; [exact Hq|split; [exact Hres|]]].
  - intros p. split; [apply Hp|].
    pose proof (wf_pending s Hwf) as Hpend.
    rewrite Forall_forall in Hpend. apply Hpend.
  - intros Hidle p st Hst. destruct st as [|e|c].
    + apply Hp in Hst.
      destruct (wf_idle s Hwf Hidle) as [Hnone _].
      unfold cycle_rejects in Hst. rewrite Hnone in Hst.
      by apply elem_of_nil in Hst.
    + left. by exists e.
    + right. exists c. split; [done|]. by apply Hres.
Qed.

Lemma pending_promises_are_queued_witness :
  let evs := login (JStr "A1") (JStr "R1")
             ++ [ResponseError (unauthorized "/a");
                 ResponseError (unauthorized "/b");
                 RefreshSettled 0 (Fulfilled (JStr "A2"));
                 ResponseError (unauthorized "/c");
                 RefreshSettled 3 (Failed (PlainError "offline"))] in
  let s := (run evs init).1 in
  isRefreshing s = false
  ∧ match promises s !! 2 with
    | Some (Resolved c) => (2, c) ∈ replays (run evs init).2 ∧ url c = "/b"
    | _ => False
    end
  ∧ promises s !! 4 = Some (Rejected (PlainError "offline"))
  ∧ ∀ p, promises s !! p ≠ Some Pending.
Proof.
  intros evs s.
  destruct (pending_promises_are_queued evs) as (_ & _ & Hres & Hidle).
  fold s in Hres, Hidle.
  split; [vm_compute; reflexivity|].
  split; [|split; [vm_compute; reflexivity|]].
  - destruct (promises s !! 2) as [[|e|c]|] eqn:H2;
      try (vm_compute in H2; discriminate).
    split; [by apply Hres|].
    vm_compute in H2. by injection H2 as <-.
  - intros p Hp.
    assert (Hi : isRefreshing s = false) by (vm_compute; reflexivity).
    destruct (Hidle Hi p Pending Hp) as [(e & He)|(c & Hc & _)];
      discriminate.
Defined.

(** ** Each callback runs at most once *)

(** X6. Over a whole run of the page, from the start or from any
    reachable state, no callback passed to [addSubscriber] is called
    twice: the promises for which a request is replayed are pairwise
    distinct. *)
Theorem callback_runs_at_most_once (evs : list Event) (s : State) :
  reachable s → NoDup (map fst (replays (run evs s).2)).
Proof.
  intros Hs.
  by destruct (run_replays_once evs s (wf_reachable s Hs)) as [H _].
Qed.

Lemma callback_runs_at_most_once_witness :
  let evs := login (JStr "A1") (JStr "R1")
             ++ [ResponseError (unauthorized "/old");
                 RefreshSettled 0 (Failed (PlainError "offline"))]
             ++ login (JStr "A3") (JStr "R3")
             ++ [ResponseError (unauthorized "/new");
                 RefreshSettled 2 (Fulfilled (JStr "A4"));
                 ResponseError (unauthorized "/next");
                 RefreshSettled 4 (Fulfilled (JStr "A5"))] in
  map fst (replays (run evs init).2) = [1; 3; 5]
  ∧ NoDup (map fst (replays (run evs init).2)).
Proof.
  intros evs.
  assert (Hs : reachable init) by (by exists []).
  split; [vm_compute; reflexivity|].
  exact (callback_runs_at_most_once evs init Hs).
Defined.

(** * Properties of the code around the pipeline *)

(** ** The base url *)

Lemma all_slashes_slashes (n : nat) : all_slashes (slashes n) = true.
Proof. induction n as [|n IH]; [done|]. simpl. exact IH. Qed.

Lemma all_slashes_spec (s : string) :
  all_slashes s = true → ∃ n, s = slashes n.
Proof.
  induction s as [|c s IH]; simpl; intros H.
  - by exists 0.
  - apply andb_true_iff in H as [Hc Hs]. apply Ascii.eqb_eq in Hc as ->.
    destruct (IH Hs) as [n ->]. by exists (S n).
Qed.

Lemma all_slashes_app (s t : string) :
  all_slashes (s +:+ t) = all_slashes s && all_slashes t.
Proof.
  induction s as [|c s IH]; simpl; [done|]. by rewrite IH, andb_assoc.
Qed.

Lemma strip_all_slashes (s : string) :
  all_slashes s = true → strip_trailing_slashes s = "".
Proof. destruct s as [|c s]; simpl; [done|]. by intros ->. Qed.

Lemma strip_empty (s : string) :
  strip_trailing_slashes s = "" → all_slashes s = true.
Proof.
  destruct s as [|c s]; simpl; [done|].
  by destruct (Ascii.eqb c "/" && all_slashes s).
Qed.

Lemma strip_decompose (s : string) :
  ∃ n, s = strip_trailing_slashes s +:+ slashes n.
Proof.
  induction s as [|c s IH]; simpl.
  - by exists 0.
  - destruct (Ascii.eqb c "/" && all_slashes s) eqn:Hc.
    + apply andb_true_iff in Hc as [Hc Hs]. apply Ascii.eqb_eq in Hc as ->.
      destruct (all_slashes_spec s Hs) as [n ->]. by exists (S n).
    + destruct IH as [n IH]. exists n. by rewrite IH at 1.
Qed.

Lemma strip_no_trailing_slash (s p : string) :
  strip_trailing_slashes s ≠ p +:+ "/".
Proof.
  revert p. induction s as [|c s IH]; intros p; simpl.
  - by destruct p.
  - destruct (Ascii.eqb c "/" && all_slashes s) eqn:Hc; [by destruct p|].
    destruct p as [|c' p]; simpl.
    + intros [= -> Hs]. apply strip_empty in Hs. simpl in Hc.
      by rewrite Hs in Hc.
    + intros [= _ Hs]. by apply IH in Hs.
Qed.

Lemma strip_append_slashes (s : string) (n : nat) :
  strip_trailing_slashes (s +:+ slashes n) = strip_trailing_slashes s.
Proof.
  induction s as [|c s IH]; simpl.
  - apply strip_all_slashes, all_slashes_slashes.
  - by rewrite all_slashes_app, all_slashes_slashes, andb_true_r, IH.
Qed.

Lemma API_BASE_spec (env : option string) :
  API_BASE env = strip_trailing_slashes (default "" env).
Proof.
  unfold API_BASE. destruct env as [s|]; simpl; [|done].
  by destruct (String.eqb_spec s "") as [->|].
Qed.

(** X7. The base url is the configured one without its trailing
    slashes, all of them and nothing else: it never ends in a slash, any
    number of slashes added to the configured value gives the same base
    url (and the same token and refresh urls), and a missing or empty
    setting gives the empty base url. *)
Theorem API_BASE_drops_trailing_slashes (env : option string) :
  (∃ n, default "" env = API_BASE env +:+ slashes n)
  ∧ (∀ p, API_BASE env ≠ p +:+ "/")
  ∧ (∀ n, API_BASE (Some (default "" env +:+ slashes n)) = API_BASE env
          ∧ refresh_url (Some (default "" env +:+ slashes n))
            = refresh_url env
          ∧ token_url (Some (default "" env +:+ slashes n)) = token_url env)
  ∧ API_BASE (Some (API_BASE env)) = API_BASE env
  ∧ API_BASE None = "" ∧ API_BASE (Some "") = "".
Proof.
  assert (Hn : ∀ n, API_BASE (Some (default "" env +:+ slashes n))
                    = API_BASE env)
    by (intros n; rewrite !API_BASE_spec; apply strip_append_slashes).
  split; [rewrite API_BASE_spec; apply strip_decompose|].
  split; [rewrite API_BASE_spec; apply strip_no_trailing_slash|].
  split; [intros n; unfold refresh_url, token_url; by rewrite Hn|].
  split; [|done].
  rewrite !API_BASE_spec. simpl.
  destruct (strip_decompose (default "" env)) as [n Hdec].
  rewrite Hdec at 2. by rewrite strip_append_slashes.
Qed.

(** ** Logging in and out *)

Lemma set_refresh_lookup_ne (v : JsVal) (m : gmap string string) (k : string) :
  k ≠ "refresh" → tokenStore.set_refresh v m !! k = m !! k.
Proof.
  intros Ha. unfold tokenStore.set_refresh, localStorage.setItem,
    localStorage.removeItem.
  destruct (truthy v); by simplify_map_eq.
Qed.

Lemma run_login (access refresh : JsVal) (s : State) :
  run (login access refresh) s
  = (set_ls (authService.login access refresh (ls s)) s, []).
Proof.
  unfold login, authService.login, tokenStore.set_access,
    tokenStore.set_refresh.
  by destruct (truthy access), (truthy refresh).
Qed.

(** X8. [login] of the auth service replaces both tokens whatever the
    store held: afterwards each token is the field of the response if
    that is truthy and is absent otherwise, and every other key is as
    before. The login form only adds: a field missing from the response
    leaves the stored value, so the two leave the same storage exactly
    when every field missing from the response was not stored before. *)
Theorem login_replaces_tokens (access refresh : JsVal)
        (m : gmap string string) :
  let m' := authService.login access refresh m in
  tokenStore.access m' = (if truthy access then Some (to_string access)
                          else None)
  ∧ tokenStore.refresh m' = (if truthy refresh then Some (to_string refresh)
                             else None)
  ∧ (∀ k, k ≠ "access" → k ≠ "refresh" → m' !! k = m !! k)
  ∧ (LoginPage.store_tokens access refresh m = m'
     ↔ (truthy access = false → tokenStore.access m = None)
       ∧ (truthy refresh = false → tokenStore.refresh m = None)).
Proof.
  intros m'. subst m'. unfold authService.login.
  split; [by rewrite access_set_refresh, access_set_access|].
  split; [by rewrite refresh_set_refresh|].
  split.
  { intros k Ha Hr.
    by rewrite set_refresh_lookup_ne, set_access_lookup_ne. }
  unfold LoginPage.store_tokens, tokenStore.set_access,
    tokenStore.set_refresh, tokenStore.access, tokenStore.refresh,
    localStorage.setItem, localStorage.removeItem, localStorage.getItem.
  destruct (truthy access), (truthy refresh); split.
  - done.
  - done.
  - intros H. split; [done|]. intros _.
    apply (f_equal (λ x, x !! "refresh")) in H. by simplify_map_eq.
  - intros [_ H]. by rewrite delete_id by (simplify_map_eq; auto).
  - intros H. split; [|done]. intros _.
    apply (f_equal (λ x, x !! "access")) in H. by simplify_map_eq.
  - intros [H _]. by rewrite (delete_id m) by auto.
  - intros H. split; intros _.
    + apply (f_equal (λ x, x !! "access")) in H. by simplify_map_eq.
    + apply (f_equal (λ x, x !! "refresh")) in H. by simplify_map_eq.
  - intros [Ha Hr]. rewrite (delete_id m) by auto. by rewrite delete_id by auto.
Qed.

(** X9. The three ways out ([logout] of the auth service, the logout of
    the navigation bar, the one of the profile page) leave the store
    without tokens; the first two leave exactly the same storage, the
    third also removes [ACCESS_TOKEN]; none touches another key, and
    each is idempotent. After any of them, in whatever state the
    pipeline is, [api] attaches no header and every failed response is
    rejected as it came, with no refresh call and no change of state. *)
Theorem logout_ends_session (s : State) :
  let m := ls s in
  Navbar.handleLogout m = authService.logout m
  ∧ Profile.onLogout m = delete "ACCESS_TOKEN" (authService.logout m)
  ∧ authService.logout (authService.logout m) = authService.logout m
  ∧ Profile.onLogout (Profile.onLogout m) = Profile.onLogout m
  ∧ (∀ k, k ≠ "access" → k ≠ "refresh" →
          authService.logout m !! k = m !! k)
  ∧ ∀ m', m' = authService.logout m ∨ m' = Profile.onLogout m →
          tokenStore.access m' = None ∧ tokenStore.refresh m' = None
          ∧ (∀ config, request_interceptor m' config = config)
          ∧ ∀ error, response_error error (set_ls m' s)
                     = (set_ls m' s, [], RetReject error).
Proof.
  intros m. subst m.
  unfold Navbar.handleLogout, Profile.onLogout, authService.logout,
    localStorage.removeItem.
  rewrite !clear_spec.
  split; [done|]. split; [done|].
  split; [by rewrite (delete_delete _ "access" "refresh"),
            !delete_delete_eq|].
  split.
  { apply map_eq. intros k. rewrite !lookup_delete. by repeat case_decide. }
  split; [intros k Ha Hr; by rewrite !lookup_delete_ne|].
  intros m' Hm'.
  assert (Ha : tokenStore.access m' = None)
    by (destruct Hm' as [-> | ->]; unfold tokenStore.access,
          localStorage.getItem; by simplify_map_eq).
  assert (Hr : tokenStore.refresh m' = None)
    by (destruct Hm' as [-> | ->]; unfold tokenStore.refresh,
          localStorage.getItem; by simplify_map_eq).
  split; [done|]. split; [done|].
  split; [intros config; apply request_interceptor_none; by rewrite Ha|].
  intros error. destruct (recoverable error) eqn:Hrec;
    [|by apply response_error_pass].
  rewrite response_error_no_refresh;
    [|done|unfold has_refresh; simpl; by rewrite Hr].
  simpl. f_equal. f_equal. unfold set_ls. simpl. f_equal.
  rewrite clear_spec. unfold tokenStore.access, tokenStore.refresh,
    localStorage.getItem in Ha, Hr.
  by rewrite (delete_id m'), delete_id.
Qed.

(** ** The token the pages send *)

Lemma js_or_truthy (a b : JsVal) : truthy a = true → js_or a b = a.
Proof. intros H. unfold js_or. by rewrite H. Qed.

Lemma js_or_falsy (a b : JsVal) : truthy a = false → js_or a b = b.
Proof. intros H. unfold js_or. by rewrite H. Qed.

Lemma with_authorization_token (btoa : string → string) (user pass : JsVal)
      (t : string) (h : gmap string string) :
  t ≠ "" →
  with_authorization btoa user pass (JStr t) h !! "Authorization"
  = Some (bearer t).
Proof.
  intros Ht. unfold with_authorization. rewrite truthy_JStr by done.
  simpl. apply lookup_insert_eq.
Qed.

(** X10. While the store holds an access token, the pages that build
    their own headers send the token [api] sends: the orders, products,
    identity, checkout and profile pages set [Authorization] to [Bearer
    <that token>] (the profile page unless the caller passes its own
    [Authorization]), and the readers of the upload page, the feed and
    the profile page return that token. The readers of the cart and of
    the product page return it only if no token is stored under
    [access_token]; one stored there wins over the token of the store. *)
Theorem pages_send_the_stored_token (btoa : string → string)
        (user pass : JsVal) (m ss : gmap string string) (t : string) :
  tokenStore.access m = Some t → t ≠ "" →
  let b := Some ("Bearer " +:+ t) in
  (∀ config,
      headers (request_interceptor m config) !! "Authorization" = b)
  ∧ Orders.getAuthHeaders btoa user pass m !! "Authorization" = b
  ∧ Products.authHeaders btoa user pass m !! "Authorization" = b
  ∧ VerifyIdentity.authHeaders btoa user pass m ss !! "Authorization" = b
  ∧ Checkout.authHeaders btoa user pass m !! "Authorization" = b
  ∧ (∀ extra, extra !! "Authorization" = None →
              Profile.authHeaders btoa user pass extra m ss
                !! "Authorization" = b)
  ∧ Profile.getAccessToken m ss = JStr t
  ∧ UploadPage.getJwt m = JStr t
  ∧ Feed.getJwt m = JStr t
  ∧ (truthy (of_item (m !! "access_token")) = false →
     Cart.getJwt m ss = JStr t ∧ ProductDetail.getJwt m = JStr t)
  ∧ (∀ t', m !! "access_token" = Some t' → t' ≠ "" →
           Cart.getJwt m ss = JStr t' ∧ ProductDetail.getJwt m = JStr t').
Proof.
  intros Hm Ht b. subst b.
  pose proof (truthy_JStr t Ht) as Htr.
  assert (Hacc : of_item (localStorage.getItem "access" m) = JStr t)
    by (unfold tokenStore.access in Hm; by rewrite Hm).
  split.
  { intros config. rewrite (request_interceptor_token m config t) by done.
    simpl. apply lookup_insert_eq. }
  unfold Orders.getAuthHeaders, Products.authHeaders,
    VerifyIdentity.authHeaders, Checkout.authHeaders, Profile.authHeaders,
    Profile.getAccessToken, UploadPage.getJwt, Feed.getJwt, Cart.getJwt,
    ProductDetail.getJwt.
  rewrite Hacc. rewrite !(js_or_truthy (JStr t)) by done.
  repeat (split; [by apply with_authorization_token|]).
  split.
  { intros extra Hex. rewrite Htr. rewrite lookup_union_r by done.
    apply lookup_singleton_eq. }
  repeat (split; [done|]).
  split.
  - intros Hno. unfold localStorage.getItem.
    rewrite (js_or_falsy _ _ Hno). by rewrite !(js_or_truthy (JStr t)).
  - intros t' Ht' Hne'. unfold localStorage.getItem. rewrite Ht'. simpl.
    by rewrite !(js_or_truthy (JStr t')) by by apply truthy_JStr.
Qed.

Lemma pages_send_the_stored_token_witness :
  let m : gmap string string :=
    {["access" := "A2"; "refresh" := "R1"; "access_token" := "A0"]} in
  Orders.getAuthHeaders (λ s, s) JNull JNull m !! "Authorization"
  = Some "Bearer A2"
  ∧ Feed.getJwt m = JStr "A2"
  ∧ Cart.getJwt m ∅ = JStr "A0".
Proof.
  intros m.
  assert (Hne : "A2" ≠ "") by discriminate.
  destruct (pages_send_the_stored_token (λ s, s) JNull JNull m ∅ "A2"
              eq_refl Hne)
    as (_ & H1 & _ & _ & _ & _ & _ & _ & H2 & _ & H3).
  split; [exact H1|]. split; [exact H2|].
  assert (Hne0 : "A0" ≠ "") by discriminate.
  by destruct (H3 "A0" eq_refl Hne0) as [H _].
Defined.

(** ** Decoding the token for display *)

Lemma length_append (s t : string) :
  String.length (s +:+ t) = String.length s + String.length t.
Proof. induction s as [|c s IH]; simpl; [done|]. by rewrite IH. Qed.

Lemma append_empty_r (s : string) : s +:+ "" = s.
Proof.
  induction s as [|c s IH]; [done|].
  change (String c s +:+ "") with (String c (s +:+ "")). by rewrite IH.
Qed.

Lemma length_repeat_char (c : ascii) (n : nat) :
  String.length (repeat_char c n) = n.
Proof. induction n as [|n IH]; simpl; [done|]. by rewrite IH. Qed.

Lemma length_replace_char (a b : ascii) (s : string) :
  String.length (replace_char a b s) = String.length s.
Proof. induction s as [|c s IH]; simpl; [done|]. by rewrite IH. Qed.

Lemma occurs_replace_char (a b : ascii) (s : string) :
  a ≠ b → occurs a (replace_char a b s) = false.
Proof.
  intros Hab. induction s as [|c s IH]; simpl; [done|]. rewrite IH.
  destruct (Ascii.eqb_spec c a) as [->|Hc].
  - rewrite orb_false_r. by apply Ascii.eqb_neq.
  - rewrite orb_false_r. by apply Ascii.eqb_neq.
Qed.

Lemma occurs_replace_char_other (a b c : ascii) (s : string) :
  c ≠ b → occurs c s = false → occurs c (replace_char a b s) = false.
Proof.
  intros Hcb. induction s as [|c' s IH]; simpl; [done|].
  intros H. apply orb_false_iff in H as [Hc Hs]. rewrite (IH Hs).
  rewrite orb_false_r. destruct (Ascii.eqb c' a); [|done].
  apply Ascii.eqb_neq. congruence.
Qed.

Lemma replace_char_absent (a b : ascii) (s : string) :
  occurs a s = false → replace_char a b s = s.
Proof.
  induction s as [|c s IH]; simpl; [done|].
  intros H. apply orb_false_iff in H as [Hc Hs]. by rewrite Hc, IH.
Qed.

Lemma pad_length (n : nat) : (n + (4 - n mod 4) mod 4) mod 4 = 0.
Proof.
  pose proof (Nat.mod_upper_bound n 4) as Hlt.
  pose proof (Nat.div_mod_eq n 4) as Hn.
  destruct (n mod 4) as [|[|[|[|r]]]] eqn:Hr; try lia; simpl (_ mod 4) at 2.
  - rewrite Nat.add_0_r. exact Hr.
  - replace (n + 3) with ((n / 4 + 1) * 4) by lia. apply Nat.Div0.mod_mul.
  - replace (n + 2) with ((n / 4 + 1) * 4) by lia. apply Nat.Div0.mod_mul.
  - replace (n + 1) with ((n / 4 + 1) * 4) by lia. apply Nat.Div0.mod_mul.
Qed.

(** X11. The text handed to [atob] has a length that is a multiple of
    four, at most three characters longer than the payload, and holds
    neither [-] nor [_]; a payload that is already plain base64 (length
    a multiple of four, neither [-] nor [_]) is handed over unchanged,
    and converting twice is converting once. *)
Theorem b64url_to_b64_shape (payload : string) :
  let b64 := b64url_to_b64 payload in
  String.length b64 mod 4 = 0
  ∧ (String.length payload ≤ String.length b64
     ∧ String.length b64 < String.length payload + 4)%nat
  ∧ occurs "-" b64 = false ∧ occurs "_" b64 = false
  ∧ (String.length payload mod 4 = 0 → occurs "-" payload = false →
     occurs "_" payload = false → b64 = payload)
  ∧ b64url_to_b64 b64 = b64.
Proof.
  intros b64.
  assert (Hlen : String.length b64
                 = String.length payload
                   + (4 - String.length payload mod 4) mod 4).
  { subst b64. unfold b64url_to_b64.
    by rewrite !length_replace_char, length_append, length_repeat_char. }
  assert (Hmod : String.length b64 mod 4 = 0)
    by (rewrite Hlen; apply pad_length).
  assert (Hdash : occurs "-" b64 = false).
  { subst b64. unfold b64url_to_b64.
    apply occurs_replace_char_other; [done|].
    by apply occurs_replace_char. }
  assert (Hunder : occurs "_" b64 = false)
    by (subst b64; unfold b64url_to_b64; by apply occurs_replace_char).
  assert (Hplain : ∀ s, String.length s mod 4 = 0 → occurs "-" s = false →
                        occurs "_" s = false → b64url_to_b64 s = s).
  { intros s Hs Hd Hu. unfold b64url_to_b64. rewrite Hs. simpl.
    rewrite append_empty_r. by rewrite (replace_char_absent "-"), replace_char_absent. }
  split; [exact Hmod|].
  split.
  { pose proof (Nat.mod_upper_bound (4 - String.length payload mod 4) 4).
    lia. }
  split; [exact Hdash|]. split; [exact Hunder|].
  split; [apply Hplain|]. by apply Hplain.
Qed.

Lemma b64url_to_b64_shape_witness :
  b64url_to_b64 "eyJzdWIiOiJhLWIifQ" = "eyJzdWIiOiJhLWIifQ=="
  ∧ b64url_to_b64 "a-b_" = "a+b/"
  ∧ b64url_to_b64 "abcd" = "abcd".
Proof.
  destruct (b64url_to_b64_shape "abcd") as (_ & _ & _ & _ & H & _).
  split; [reflexivity|]. split; [reflexivity|].
  by apply H.
Defined.

Lemma split_nonempty (sep : ascii) (s : string) : split sep s ≠ [].
Proof.
  induction s as [|c s IH]; simpl; [done|].
  destruct (Ascii.eqb c sep); [done|]. by destruct (split sep s).
Qed.

Lemma split_absent (sep : ascii) (s : string) :
  occurs sep s = false → split sep s = [s].
Proof.
  induction s as [|c s IH]; simpl; [done|].
  intros H. apply orb_false_iff in H as [Hc Hs]. by rewrite Hc, IH.
Qed.

Lemma split_at_first (sep : ascii) (h r : string) :
  occurs sep h = false →
  split sep (h +:+ String sep r) = h :: split sep r.
Proof.
  induction h as [|c h IH]; simpl.
  - intros _. by rewrite Ascii.eqb_refl.
  - intros H. apply orb_false_iff in H as [Hc Hs].
    change (String c h +:+ String sep r) with (String c (h +:+ String sep r)).
    simpl. by rewrite Hc, IH.
Qed.

Lemma decodeJwt_nonempty {Json : Type} (parse : string → option Json)
      (t : string) :
  t ≠ "" →
  Navbar.decodeJwt parse (Some t)
  = if (length (split "." t) <? 2)%nat then None
    else parse (b64url_to_b64 (nth 1 (split "." t) "")).
Proof.
  intros Ht. unfold Navbar.decodeJwt, Navbar.safeB64UrlToJson. simpl.
  by destruct (String.eqb_spec t "").
Qed.

(** X12. [decodeJwt] gives [null] for a missing or empty token and for a
    token without a dot; otherwise it decodes the text between the first
    and the second dot (to the end when there is no second dot) and
    nothing else: header and signature play no part. The decoder of the
    upload page gives the same result on every token, since decoding
    the empty text fails. *)
Theorem decodeJwt_reads_second_segment {Json : Type}
        (parse : string → option Json) :
  Navbar.decodeJwt parse None = None
  ∧ Navbar.decodeJwt parse (Some "") = None
  ∧ (∀ t, occurs "." t = false → Navbar.decodeJwt parse (Some t) = None)
  ∧ (∀ h p, occurs "." h = false → occurs "." p = false →
       Navbar.decodeJwt parse (Some (h +:+ "." +:+ p))
       = parse (b64url_to_b64 p)
       ∧ ∀ sig, Navbar.decodeJwt parse (Some (h +:+ "." +:+ p +:+ "." +:+ sig))
                = parse (b64url_to_b64 p))
  ∧ (parse "" = None →
     ∀ token, UploadPage.decodeJwtPayload parse token
              = Navbar.decodeJwt parse token).
Proof.
  split; [done|]. split; [done|].
  split.
  { intros t Ht. unfold Navbar.decodeJwt. simpl.
    destruct (String.eqb t ""); [done|]. simpl.
    by rewrite split_absent. }
  split.
  { intros h p Hh Hp.
    assert (Hne : ∀ r, h +:+ String "." r ≠ "") by (intros r; by destruct h).
    split.
    - change (h +:+ "." +:+ p) with (h +:+ String "." p).
      rewrite decodeJwt_nonempty by done.
      rewrite split_at_first by done. by rewrite split_absent.
    - intros sig.
      change (h +:+ "." +:+ p +:+ "." +:+ sig)
        with (h +:+ String "." (p +:+ String "." sig)).
      rewrite decodeJwt_nonempty by done.
      rewrite !split_at_first by done.
      pose proof (split_nonempty "." sig). by destruct (split "." sig). }
  intros Hparse [t|]; [|done].
  unfold Navbar.decodeJwt, UploadPage.decodeJwtPayload,
    Navbar.safeB64UrlToJson. simpl.
  destruct (String.eqb_spec t "") as [->|Hne]; [done|]. simpl.
  pose proof (split_nonempty "." t) as Hnil.
  destruct (split "." t) as [|x [|y rest]]; [done|done|]. simpl.
  destruct (String.eqb_spec y "") as [->|Hy]; [|done].
  simpl. change (b64url_to_b64 "") with "". by rewrite Hparse.
Qed.

Lemma decodeJwt_reads_second_segment_witness :
  let parse (s : string) := if String.eqb s "" then None else Some s in
  Navbar.decodeJwt parse (Some "hdr.pay-load.sig") = Some "pay+load"
  ∧ UploadPage.decodeJwtPayload parse (Some "hdr.pay-load.sig")
    = Some "pay+load"
  ∧ Navbar.decodeJwt parse (Some "nodots") = None.
Proof.
  intros parse.
  destruct (decodeJwt_reads_second_segment parse) as (_ & _ & H3 & H4 & H5).
  destruct (H4 "hdr" "pay-load" eq_refl eq_refl) as [_ Hsig].
  split; [exact (Hsig "sig")|].
  split; [rewrite (H5 eq_refl); exact (Hsig "sig")|].
  by apply H3.
Defined.

(** ** Failures that are not the pipeline's business *)

(** X13. A failure whose status is not 401 (a 403 or 500, a network
    failure without response, an error without config) goes back to the
    caller as it came: the state is untouched and nothing is issued. In
    any case the error interceptor returns either a rejection with the
    very error it was given or, from a reachable state, a new promise
    that is pending, which it does only for a 401 on a request not
    marked as retried while the store holds a refresh token. *)
Theorem other_errors_pass_through :
  (∀ error s,
      error_status error ≠ Some 401%Z →
      step (ResponseError error) s
      = (s, [Returned error (RetReject error)]))
  ∧ (∀ error s,
      reachable s →
      (response_error error s).2 = RetReject error
      ∨ ∃ p, (response_error error s).2 = RetPromise p
             ∧ promises (response_error error s).1.1 !! p = Some Pending
             ∧ promises s !! p = None
             ∧ recoverable error = true ∧ has_refresh s = true).
Proof.
  split.
  - intros error s Hst. rewrite step_response_error.
    rewrite response_error_pass; [done|].
    unfold recoverable. by rewrite bool_decide_eq_false_2.
  - intros error s Hs. pose proof (wf_reachable s Hs) as Hwf.
    assert (Hfresh : ∀ p, (next_id s ≤ p)%nat → promises s !! p = None).
    { intros p Hp. destruct (promises s !! p) eqn:E; [|done].
      assert (p < next_id s) by (apply (wf_promises s Hwf); eauto). lia. }
    response_error_cases error s Hwf; try by left.
    + right. exists (next_id s). simpl. rewrite lookup_insert_eq.
      repeat split; try done. by apply Hfresh.
    + right. exists (S (next_id s)). simpl. rewrite lookup_insert_eq.
      repeat split; try done. apply Hfresh. lia.
Qed.

Lemma other_errors_pass_through_witness :
  let s := (run (login (JStr "A1") (JStr "R1")) init).1 in
  let offline := AxiosError (Some empty_config) None in
  step (ResponseError offline) s = (s, [Returned offline (RetReject offline)])
  ∧ (response_error (unauthorized "/a") s).2 = RetPromise 1.
Proof.
  intros s offline.
  destruct other_errors_pass_through as [H _].
  split; [by apply H|reflexivity].
Defined.

(** ** Media urls *)

Lemma prefix_ci_app (p s t : string) :
  prefix_ci p s = true → prefix_ci p (s +:+ t) = true.
Proof.
  revert s. induction p as [|a p IH]; intros s; [done|].
  destruct s as [|b s]; [done|]. simpl.
  intros H. apply andb_true_iff in H as [Hab Hp].
  change (String b s +:+ t) with (String b (s +:+ t)).
  simpl. rewrite Hab. by apply IH.
Qed.

Lemma has_scheme_app (s t : string) :
  has_scheme s = true → has_scheme (s +:+ t) = true.
Proof.
  unfold has_scheme. rewrite !orb_true_iff.
  intros [[[H|H]|H]|H]; apply (prefix_ci_app _ _ t) in H; auto.
Qed.

Lemma absUrl_relative (MEDIA_BASE path : string) :
  path ≠ "" → has_scheme path = false →
  absUrl MEDIA_BASE (Some path)
  = MEDIA_BASE +:+ (if starts_with "/" path then "" else "/") +:+ path.
Proof.
  intros Hne Hs. unfold absUrl. simpl.
  destruct (String.eqb_spec path ""); [done|]. simpl. by rewrite Hs.
Qed.

Lemma append_nonempty_r (s t : string) : t ≠ "" → s +:+ t ≠ "".
Proof. intros Ht. destruct s; [done|]. discriminate. Qed.

(** X14. [absUrl] gives the empty string for a missing or empty path
    and returns a path with a scheme ([http:], [https:], [blob:],
    [data:], in any case of letters) as it is; any other path is put
    behind the media base, with a slash in between unless the path
    brings its own. When the media base itself starts with such a
    scheme, [absUrl] applied to its own result changes nothing. The
    [absUrl] of the feed gives the same url for every path that does
    not start with two slashes. *)
Theorem absUrl_is_idempotent (MEDIA_BASE : string) :
  absUrl MEDIA_BASE None = "" ∧ absUrl MEDIA_BASE (Some "") = ""
  ∧ (∀ path, has_scheme path = true → absUrl MEDIA_BASE (Some path) = path)
  ∧ (∀ path, path ≠ "" → has_scheme path = false →
       absUrl MEDIA_BASE (Some ("/" +:+ path)) = MEDIA_BASE +:+ "/" +:+ path
       ∧ (starts_with "/" path = false →
          absUrl MEDIA_BASE (Some path) = MEDIA_BASE +:+ "/" +:+ path))
  ∧ (has_scheme MEDIA_BASE = true →
     ∀ path, absUrl MEDIA_BASE (Some (absUrl MEDIA_BASE path))
             = absUrl MEDIA_BASE path)
  ∧ (∀ protocol path,
       starts_with "//" (default "" path) = false →
       FeedUrl.absUrl MEDIA_BASE protocol path = absUrl MEDIA_BASE path).
Proof.
  assert (Hscheme : ∀ path, has_scheme path = true →
                            absUrl MEDIA_BASE (Some path) = path).
  { intros path Hs. unfold absUrl. simpl.
    destruct (String.eqb_spec path "") as [->|Hne]; [done|].
    simpl. by rewrite Hs. }
  split; [done|]. split; [done|]. split; [exact Hscheme|].
  split.
  { intros path Hne Hs. split.
    - change ("/" +:+ path) with (String "/" path).
      rewrite absUrl_relative; [reflexivity | done | reflexivity].
    - intros Hp. rewrite absUrl_relative by done. by rewrite Hp. }
  split.
  { intros Hbase [path|]; [|done].
    destruct (String.eqb_spec path "") as [->|Hne]; [done|].
    destruct (has_scheme path) eqn:Hs.
    - rewrite (Hscheme path Hs). by apply Hscheme.
    - apply Hscheme. rewrite absUrl_relative by done.
      by apply has_scheme_app. }
  intros protocol [path|]; [|done]. intros Hno.
  change (default "" (Some path)) with path in Hno.
  unfold FeedUrl.absUrl, absUrl.
  destruct (negb (truthy (of_item (Some path)))); [done|].
  change (to_string (of_item (Some path))) with path.
  destruct (has_scheme path); [done|]. rewrite Hno.
  by destruct (starts_with "/" path).
Qed.

Lemma absUrl_is_idempotent_witness :
  let base := "https://cdn.example.com" in
  absUrl base (Some "media/a.png") = "https://cdn.example.com/media/a.png"
  ∧ absUrl base (Some "/media/a.png") = "https://cdn.example.com/media/a.png"
  ∧ absUrl base (Some "HTTPS://x/y") = "HTTPS://x/y"
  ∧ absUrl base (Some (absUrl base (Some "media/a.png")))
    = absUrl base (Some "media/a.png").
Proof.
  intros base.
  destruct (absUrl_is_idempotent base) as (_ & _ & _ & _ & H & _).
  split; [reflexivity|]. split; [reflexivity|]. split; [reflexivity|].
  exact (H eq_refl (Some "media/a.png")).
Defined.

(** ** Optimistic updates of the cart *)

Section CartUpdates.

Context {V : Type} `{EqDecision V}.
Variable itemId : option V.

Let matches (it : gmap string V) : bool := bool_decide (it !! "id" = itemId).

Local Lemma set_quantity_id (q : V) (it : gmap string V) :
  Cart.set_quantity q it !! "id" = it !! "id".
Proof. unfold Cart.set_quantity. by rewrite lookup_insert_ne. Qed.

Local Lemma map_fixed {A : Type} (f : A → A) (l : list A) :
  map f l = l ↔ ∀ x, x ∈ l → f x = x.
Proof.
  induction l as [|a l IH]; simpl.
  - split; [|done]. intros _ x Hx. by apply elem_of_nil in Hx.
  - split.
    + intros [= Ha Hl] x Hx. apply elem_of_cons in Hx as [->|Hx]; [done|].
      by apply IH.
    + intros Hall. f_equal; [apply Hall; by left|].
      apply IH. intros x Hx. apply Hall. by right.
Qed.

(** X15. The optimistic updates of the cart leave a missing cart as it
    is and keep the other fields of the cart. Removing an item keeps
    exactly the items with another id, in their order. Setting the
    quantity of an item keeps the number and the order of the items and
    changes nothing but the quantity of the items with that id. Setting
    the quantity a second time leaves the cart as the first write found
    it exactly when every item with that id had this quantity as its raw
    field. The failed update of [onQtyChange] sets it back to the number
    the page derived, [Number(it.quantity || 1)]: it restores the cart
    exactly when the raw quantity of the items with that id is already
    that number, and leaves a changed cart otherwise (a raw quantity
    that is missing or a string). *)
Theorem optimistic_cart_updates (number : option V → V)
        (its : list (gmap string V)) (rest : gmap string V) (q q0 : V) :
  let c := Some (Cart.mkCart (Some its) rest) in
  let removed := List.filter (λ it, negb (matches it)) its in
  let changed := map (λ it, if matches it then Cart.set_quantity q it
                              else it) its in
  let rolled q0 := map (λ it, if matches it then Cart.set_quantity q0 it
                                else it) its in
  Cart.optimisticRemove itemId None = Cart.Next None
  ∧ Cart.optimisticUpdate itemId (Cart.set_quantity q) None = Cart.Next None
  ∧ Cart.optimisticRemove itemId c
    = Cart.Next (Some (Cart.mkCart (Some removed) rest))
  ∧ (∀ it, it ∈ removed ↔ it ∈ its ∧ it !! "id" ≠ itemId)
  ∧ sublist removed its
  ∧ Cart.optimisticUpdate itemId (Cart.set_quantity q) c
    = Cart.Next (Some (Cart.mkCart (Some changed) rest))
  ∧ length changed = length its
  ∧ map (λ it, it !! "id") changed = map (λ it, it !! "id") its
  ∧ (∀ it, it ∈ changed → it !! "id" ≠ itemId → it ∈ its)
  ∧ Cart.optimisticUpdate itemId (Cart.set_quantity q0)
      (Some (Cart.mkCart (Some changed) rest))
    = Cart.Next (Some (Cart.mkCart (Some (rolled q0)) rest))
  ∧ (rolled q0 = its
     ↔ ∀ it, it ∈ its → it !! "id" = itemId → it !! "quantity" = Some q0)
  ∧ ∀ item, item !! "id" = itemId →
      Cart.onQtyChange_failed number item q c
      = Cart.Next (Some (Cart.mkCart (Some (rolled (Cart.qty number item)))
                                     rest))
      ∧ (Cart.onQtyChange_failed number item q c = Cart.Next c
         ↔ ∀ it, it ∈ its → it !! "id" = itemId →
                 it !! "quantity" = Some (number (item !! "quantity")))
      ∧ (item ∈ its →
         item !! "quantity" ≠ Some (number (item !! "quantity")) →
         Cart.onQtyChange_failed number item q c ≠ Cart.Next c).
Proof.
  intros c removed changed rolled.
  assert (Hroll : ∀ q1,
            Cart.optimisticUpdate itemId (Cart.set_quantity q1)
              (Some (Cart.mkCart (Some changed) rest))
            = Cart.Next (Some (Cart.mkCart (Some (rolled q1)) rest))).
  { intros q1. unfold Cart.optimisticUpdate. simpl. subst changed rolled.
    do 4 f_equal. rewrite map_map. apply map_ext. intros it.
    fold (matches it). destruct (matches it) eqn:Hm.
    - rewrite set_quantity_id. fold (matches it). rewrite Hm.
      unfold Cart.set_quantity. by rewrite insert_insert_eq.
    - fold (matches it). by rewrite Hm. }
  assert (Hfix : ∀ q1,
            rolled q1 = its
            ↔ ∀ it, it ∈ its → it !! "id" = itemId →
                    it !! "quantity" = Some q1).
  { intros q1. subst rolled. cbv beta. rewrite map_fixed.
    split; intros Hall it Hin.
    - intros Hid. specialize (Hall it Hin).
      unfold matches in Hall. rewrite bool_decide_eq_true_2 in Hall by done.
      apply (f_equal (lookup "quantity")) in Hall.
      unfold Cart.set_quantity in Hall.
      by rewrite lookup_insert_eq in Hall.
    - unfold matches.
      destruct (bool_decide_reflect (it !! "id" = itemId)) as [Hid|Hid];
        [|done].
      apply insert_id. by apply Hall. }
  split; [done|]. split; [done|]. split; [done|].
  split.
  { intros it. subst removed. rewrite list_elem_of_In, filter_In.
    rewrite <- list_elem_of_In. unfold matches.
    rewrite negb_true_iff, bool_decide_eq_false. done. }
  split.
  { subst removed. clear. induction its as [|it l IH]; simpl.
    - constructor.
    - destruct (negb (matches it)); by constructor. }
  split; [done|].
  split; [subst changed; by rewrite length_map|].
  split.
  { subst changed. rewrite map_map. apply map_ext. intros it.
    destruct (matches it); [apply set_quantity_id|done]. }
  split.
  { intros it Hin Hid. subst changed.
    apply list_elem_of_fmap in Hin as (it0 & -> & Hin0).
    unfold matches in *. destruct (bool_decide_reflect (it0 !! "id" = itemId))
      as [Heq|Hne]; [|done].
    exfalso. apply Hid. by rewrite set_quantity_id. }
  split; [apply Hroll|]. split; [apply Hfix|].
  intros item Hitem.
  assert (Hfail : Cart.onQtyChange_failed number item q c
                  = Cart.Next (Some (Cart.mkCart
                                       (Some (rolled (Cart.qty number item)))
                                       rest))).
  { unfold Cart.onQtyChange_failed. rewrite Hitem. subst c.
    change (Cart.optimisticUpdate itemId (Cart.set_quantity q)
              (Some (Cart.mkCart (Some its) rest)))
      with (Cart.Next (Some (Cart.mkCart (Some changed) rest))).
    cbv zeta. cbv iota. apply Hroll. }
  assert (Hiff : Cart.onQtyChange_failed number item q c = Cart.Next c
                 ↔ ∀ it, it ∈ its → it !! "id" = itemId →
                         it !! "quantity" = Some (number (item !! "quantity"))).
  { rewrite Hfail. rewrite <- (Hfix (Cart.qty number item)). subst c.
    split; [by intros [= ->] | by intros ->]. }
  split; [exact Hfail|]. split; [exact Hiff|].
  intros Hin Hne Heq. apply Hne. by apply Hiff.
Qed.

End CartUpdates.

Lemma optimistic_cart_updates_witness :
  let number (o : option nat) : nat :=
    match o with Some (S n) => S n | _ => 1 end in
  let a : gmap string nat := {["id" := 1; "quantity" := 2]} in
  let b : gmap string nat := {["id" := 7]} in
  let c := Some (Cart.mkCart (Some [a; b]) ∅) in
  Cart.onQtyChange_failed number a 5 c = Cart.Next c
  ∧ Cart.onQtyChange_failed number b 5 c
    = Cart.Next (Some (Cart.mkCart (Some [a; <["quantity" := 1]> b]) ∅))
  ∧ Cart.onQtyChange_failed number b 5 c ≠ Cart.Next c.
Proof.
  intros number a b c.
  destruct (optimistic_cart_updates (Some 1) number [a; b] ∅ 5 0)
    as (_ & _ & _ & _ & _ & _ & _ & _ & _ & _ & _ & Ha).
  destruct (optimistic_cart_updates (Some 7) number [a; b] ∅ 5 0)
    as (_ & _ & _ & _ & _ & _ & _ & _ & _ & _ & _ & Hb).
  destruct (Ha a eq_refl) as (_ & Hiff & _).
  destruct (Hb b eq_refl) as (Hfail & _ & Hne).
  split; [|split].
  - apply Hiff. intros it Hin Hid.
    apply elem_of_cons in Hin as [->|Hin]; [reflexivity|].
    apply list_elem_of_singleton in Hin as ->. discriminate.
  - exact Hfail.
  - apply Hne; [right; left | discriminate].
Defined.
